(** * The algorithm tutorials of [tutorials/2026/02], embedded and checked

    Each module below embeds one tutorial script.  Python lists are Rocq
    lists (indexing written out with its bounds check and its wrap-around
    on negative indices), insertion-ordered dictionaries are association
    lists, exceptions are the [Raise] side of [result], and loops whose
    termination is not structural are either defined by well-founded
    recursion or take an explicit budget of iterations. *)

From Stdlib Require Import ZArith Lia List Sorted Bool String Ascii.
From stdpp Require Import base decidable option list gmap relations sorting.
From Equations Require Import Equations.
Import ListNotations.

(** ** Exceptions and results *)

(** The exceptions a script can end with.  [IndexError], [KeyError],
    [NameError] and [RecursionError] are the interpreter's own;
    [InvalidNodeError], [IndexOutOfRange], [EmptyStackError] and
    [EmptyStructureError] are the names of the written error taxonomy: no
    statement of any script raises them. *)
Inductive exn : Set :=
| IndexError
| KeyError
| NameError
| RecursionError
| InvalidNodeError
| IndexOutOfRange
| EmptyStackError
| EmptyStructureError.

Inductive result (A : Type) : Type :=
| Ok (a : A)
| Raise (e : exn).
Arguments Ok {A} a.
Arguments Raise {A} e.

Definition bind {A B} (k : A → result B) (r : result A) : result B :=
  match r with
  | Ok a => k a
  | Raise e => Raise e
  end.

#[global] Instance result_bind : MBind result := @bind.
#[global] Instance result_ret : MRet result := @Ok.

(** A value together with the fact that it is the value of [x]: lets a
    definition by cases on [x] keep the equation for its termination proof. *)
Definition inspect {A : Type} (x : A) : {y : A | x = y} := exist _ x eq_refl.

(** ** Python list subscripts

    [l[i]] accepts [-len(l) <= i < len(l)]; a negative index counts from
    the end.  Anything else raises [IndexError]. *)
Definition norm_index (len : nat) (i : Z) : option nat :=
  if (0 <=? i)%Z && (i <? Z.of_nat len)%Z then Some (Z.to_nat i)
  else if (- Z.of_nat len <=? i)%Z && (i <? 0)%Z then Some (Z.to_nat (Z.of_nat len + i))
  else None.

Definition getitem {A} (l : list A) (i : Z) : result A :=
  match norm_index (length l) i with
  | Some k => match l !! k with Some a => Ok a | None => Raise IndexError end
  | None => Raise IndexError
  end.

Definition setitem {A} (l : list A) (i : Z) (a : A) : result (list A) :=
  match norm_index (length l) i with
  | Some k => Ok (<[k := a]> l)
  | None => Raise IndexError
  end.

(** ** Merge sort, index-based merge ([python_10_feb_246.py]) *)
Module MergeSort246.
Section Sort.
Context {A : Type} (leb : A → A → bool).

(** The first [while] of [merge]: both indices in range.  [left !! li]
    is [Some] exactly when [left_index < len(left)]. *)
Equations? merge_both (left right merged : list A) (left_index right_index : nat)
  : list A * nat * nat
  by wf ((length left - left_index) + (length right - right_index)) lt :=
  merge_both l r merged li ri with inspect (l !! li) => {
    | exist _ None _ => (merged, li, ri)
    | exist _ (Some a) Ha with inspect (r !! ri) => {
      | exist _ None _ => (merged, li, ri)
      | exist _ (Some b) Hb with leb a b => {
        | true => merge_both l r (merged ++ [a]) (S li) ri
        | false => merge_both l r (merged ++ [b]) li (S ri) } } }.
Proof.
  - apply lookup_lt_Some in Ha. lia.
  - apply lookup_lt_Some in Hb. lia.
Qed.

(** The second and third [while]: copy what remains of one list. *)
Equations? merge_rest (src merged : list A) (index : nat) : list A
  by wf (length src - index) lt :=
  merge_rest src merged i with inspect (src !! i) => {
    | exist _ None _ => merged
    | exist _ (Some a) Ha => merge_rest src (merged ++ [a]) (S i) }.
Proof. apply lookup_lt_Some in Ha. lia. Qed.

Definition merge (left right : list A) : list A :=
  let '(merged, left_index, right_index) := merge_both left right [] 0 0 in
  let merged := merge_rest left merged left_index in
  merge_rest right merged right_index.

Equations? merge_sort (arr : list A) : list A by wf (length arr) lt :=
  merge_sort arr with inspect (length arr <=? 1) => {
    | exist _ true _ => arr
    | exist _ false Hlen =>
        merge (merge_sort (take (length arr / 2) arr))
              (merge_sort (drop (length arr / 2) arr)) }.
Proof.
  all: apply Nat.leb_gt in Hlen;
    change (fst (Nat.divmod (length arr) 1 0 1)) with (length arr / 2);
    pose proof (Nat.div_str_pos (length arr) 2);
    pose proof (Nat.div_lt (length arr) 2).
  - rewrite length_take. lia.
  - rewrite length_drop. lia.
Qed.
End Sort.
End MergeSort246.

(** ** Merge sort, pop-based merge ([python_18_feb_547.py]) *)
Module MergeSort547.
Section Sort.
Context {A : Type} (leb : A → A → bool).

(** The [while] of [merge]: [left.pop(0)] and [right.pop(0)] shorten the
    two lists themselves; the loop hands back what is left of them. *)
Equations? merge_loop (left right merged : list A) : list A * list A * list A
  by wf (length left + length right) lt :=
  merge_loop (x :: l) (y :: r) merged with leb x y => {
    | true => merge_loop l (y :: r) (merged ++ [x])
    | false => merge_loop (x :: l) r (merged ++ [y]) };
  merge_loop l r merged := (l, r, merged).
Proof. all: simpl; lia. Qed.

Definition merge (left right : list A) : list A :=
  let '(l, r, merged) := merge_loop left right [] in
  (merged ++ l) ++ r.

Equations? merge_sort (arr : list A) : list A by wf (length arr) lt :=
  merge_sort arr with inspect (length arr <=? 1) => {
    | exist _ true _ => arr
    | exist _ false Hlen =>
        merge (merge_sort (take (length arr / 2) arr))
              (merge_sort (drop (length arr / 2) arr)) }.
Proof.
  all: apply Nat.leb_gt in Hlen;
    change (fst (Nat.divmod (length arr) 1 0 1)) with (length arr / 2);
    pose proof (Nat.div_str_pos (length arr) 2);
    pose proof (Nat.div_lt (length arr) 2).
  - rewrite length_take. lia.
  - rewrite length_drop. lia.
Qed.
End Sort.
End MergeSort547.

(** The merge both scripts implement, as a function of the two lists:
    take from the left list while its head is [<=] the right one's. *)
Fixpoint merge_ref {A : Type} (leb : A → A → bool) (l : list A) : list A → list A :=
match l with
| [] => fun r => r
| x :: l' =>
    fix scan (r : list A) : list A :=
      match r with
      | [] => x :: l'
      | y :: r' => if leb x y then x :: merge_ref leb l' r else y :: scan r'
      end
end.

(** ** Monotonic stack ([python_13_feb_501.py])

    [self.stack] is a Python list: bottom first, the top is its last
    element ([self.stack[-1]]). *)
Module MonotonicStack.
Section Stack.
(** The stack holds whatever values are pushed; [ltb a b] is the
    comparison [a < b] of those values. *)
Context {A : Type} (ltb : A → A → bool).

Definition init : list A := [].

(** The [while] of [push]: pop the top as long as [val < self.stack[-1]]. *)
Equations? evict (stack : list A) (val : A) : list A by wf (length stack) lt :=
  evict stack val with inspect (last stack) => {
    | exist _ None _ => stack
    | exist _ (Some top) Htop with ltb val top => {
      | true => evict (removelast stack) val
      | false => stack } }.
Proof.
  apply last_Some in Htop as [l' ->].
  rewrite removelast_last, length_app. simpl. lia.
Qed.

Definition push (stack : list A) (val : A) : list A := evict stack val ++ [val].

(** [pop] hands back the popped value and the shortened stack. *)
Definition pop (stack : list A) : result (A * list A) :=
  match last stack with
  | Some top => Ok (top, removelast stack)
  | None => Raise IndexError
  end.

Definition is_empty (stack : list A) : bool := Nat.eqb (length stack) 0.
End Stack.
End MonotonicStack.

(** ** Values that are not totally ordered

    Both scripts compare whatever they are given with [<] and [<=].
    Python's floats are among the values they accept, and [nan]
    compares false with every float, itself included.  The whole-number
    floats and [nan] are kept here. *)
Inductive pyfloat : Set :=
| NaN
| Float (z : Z).

Definition float_ltb (a b : pyfloat) : bool :=
  match a, b with
  | Float x, Float y => (x <? y)%Z
  | _, _ => false
  end.

Definition float_leb (a b : pyfloat) : bool :=
  match a, b with
  | Float x, Float y => (x <=? y)%Z
  | _, _ => false
  end.

(** ** Dijkstra ([python_16_feb_264.py]) *)
Module Dijkstra.
Local Open Scope Z_scope.

Definition node := string.

(** A [dict] keeps its keys in insertion order, and the loops of the
    script iterate in that order. *)
Definition dict (V : Type) := list (node * V).

Fixpoint dict_get {V} (d : dict V) (k : node) : result V :=
  match d with
  | [] => Raise KeyError
  | (k', v) :: d' => if String.eqb k k' then Ok v else dict_get d' k
  end.

(** [d[k] = v]: an existing key keeps its place, a new one goes last. *)
Fixpoint dict_set {V} (d : dict V) (k : node) (v : V) : dict V :=
  match d with
  | [] => [(k, v)]
  | (k', v') :: d' =>
      if String.eqb k k' then (k', v) :: d' else (k', v') :: dict_set d' k v
  end.

Definition graph := dict (dict Z).

(** [sys.maxsize] of a 64-bit interpreter. *)
Definition sys_maxsize : Z := 2 ^ 63 - 1.

(** *** The priority queue

    [heapq] keeps [pq] as a binary heap of tuples; all the script
    observes of it is that [heappop] removes and returns the least
    tuple, tuples being compared lexicographically.  The queue is kept
    here as the list of its entries. *)
Definition entry := (Z * node)%type.

Definition entry_ltb (a b : entry) : bool :=
  (a.1 <? b.1) || ((a.1 =? b.1) && String.ltb a.2 b.2).

Definition entry_eqb (a b : entry) : bool :=
  (a.1 =? b.1) && String.eqb a.2 b.2.

Definition heappush (pq : list entry) (e : entry) : list entry := pq ++ [e].

Fixpoint remove_first (e : entry) (pq : list entry) : list entry :=
  match pq with
  | [] => []
  | x :: pq' => if entry_eqb e x then pq' else x :: remove_first e pq'
  end.

Definition heappop (pq : list entry) : option (entry * list entry) :=
  match pq with
  | [] => None
  | x :: rest =>
      let least := fold_left (fun m y => if entry_ltb y m then y else m) rest x in
      Some (least, remove_first least pq)
  end.

(** *** The function

    [previous] is assigned by subscript only ([previous[neighbor] = ...]),
    never bound inside [dijkstra], so the name is looked up among the
    module's globals at the time of the call: [globals_previous] is that
    binding, [None] when the name is unbound. *)
Record frame := Frame {
  distances : dict Z;
  previous : option (dict node);
  pq : list entry
}.

(** One turn of [for neighbor, weight in graph[current_node].items()]. *)
Definition relax (current_distance : Z) (current_node : node)
    (st : frame) (item : node * Z) : result frame :=
  let '(neighbor, weight) := item in
  let distance := current_distance + weight in
  known ← dict_get (distances st) neighbor;
  if distance <? known then
    let distances' := dict_set (distances st) neighbor distance in
    match previous st with
    | None => Raise NameError
    | Some prev =>
        Ok (Frame distances' (Some (dict_set prev neighbor current_node))
                  (heappush (pq st) (distance, neighbor)))
    end
  else Ok st.

Fixpoint relax_all (current_distance : Z) (current_node : node)
    (st : frame) (items : list (node * Z)) : result frame :=
  match items with
  | [] => Ok st
  | item :: items' =>
      st' ← relax current_distance current_node st item;
      relax_all current_distance current_node st' items'
  end.

(** [while len(pq) > 0]; [fuel] bounds the number of turns, [None] is a
    loop that has not finished within it. *)
Fixpoint main_loop (fuel : nat) (g : graph) (st : frame) : option (result frame) :=
  match heappop (pq st) with
  | None => Some (Ok st)
  | Some ((current_distance, current_node), pq') =>
      match fuel with
      | O => None
      | S fuel' =>
          let st := Frame (distances st) (previous st) pq' in
          match dict_get (distances st) current_node with
          | Raise e => Some (Raise e)
          | Ok best =>
              if current_distance >? best then main_loop fuel' g st
              else
                match items ← dict_get g current_node;
                      relax_all current_distance current_node st items with
                | Raise e => Some (Raise e)
                | Ok st' => main_loop fuel' g st'
                end
          end
      end
  end.

Definition dijkstra (globals_previous : option (dict node)) (fuel : nat)
    (g : graph) (start : node) : option (result (dict Z * dict node)) :=
  let initial := map (fun kv => (kv.1, sys_maxsize)) g in
  let initial := dict_set initial start 0 in
  match main_loop fuel g (Frame initial globals_previous [(0, start)]) with
  | None => None
  | Some (Raise e) => Some (Raise e)
  | Some (Ok st) =>
      match previous st with
      | None => Some (Raise NameError)
      | Some prev => Some (Ok (distances st, prev))
      end
  end.

(** The graph of the script's own example. *)
Definition example_graph : graph :=
  [ ("A", [("B", 1); ("C", 3)]);
    ("B", [("A", 1); ("C", 2); ("D", 4)]);
    ("C", [("A", 3); ("B", 2); ("D", 5)]);
    ("D", [("B", 4); ("C", 5)]) ]%string.

(** Walking [previous] back from [target] to [start], as the script's
    [while current_node != start_node] does; the path is returned from
    the source to the target. *)
Fixpoint walk_back (fuel : nat) (prev : dict node) (start current : node)
    (path : list node) : option (result (list node)) :=
  if String.eqb current start then Some (Ok (current :: path))
  else
    match fuel with
    | O => None
    | S fuel' =>
        match dict_get prev current with
        | Raise e => Some (Raise e)
        | Ok before => walk_back fuel' prev start before (current :: path)
        end
    end.
End Dijkstra.

(** ** Segment tree of maxima ([python_12_feb_910.py])

    Every method is recursive; [depth] is the number of nested calls the
    interpreter still allows, and a call beyond it raises
    [RecursionError]. *)
Module SegmentTree910.
Local Open Scope Z_scope.

(** What a query returns: an element of the tree or [float('-inf')]. *)
Inductive num : Set :=
| NegInf
| Int (z : Z).

(** [max(a, b)]: the first argument unless the second is greater. *)
Definition py_max (a b : num) : num :=
  match a, b with
  | NegInf, Int _ => b
  | Int x, Int y => if x <? y then b else a
  | _, NegInf => a
  end.

Fixpoint build_tree (depth : nat) (tree arr : list Z) (start end_ index : Z)
    : result (list Z) :=
  match depth with
  | O => Raise RecursionError
  | S depth' =>
      if start =? end_ then
        leaf ← getitem arr start;
        setitem tree index leaf
      else
        let mid := (start + end_) / 2 in
        tree ← build_tree depth' tree arr start mid (2 * index + 1);
        tree ← build_tree depth' tree arr (mid + 1) end_ (2 * index + 2);
        l ← getitem tree (2 * index + 1);
        r ← getitem tree (2 * index + 2);
        setitem tree index (Z.max l r)
  end.

(** [SegmentTree(arr)]: the object is its [tree] attribute. *)
Definition init (depth : nat) (arr : list Z) : result (list Z) :=
  let n := Z.of_nat (length arr) in
  let tree := replicate (Z.to_nat (4 * n)) 0 in
  build_tree depth tree arr 0 (n - 1) 0.

Fixpoint query_helper (depth : nat) (tree : list Z)
    (start end_ index tree_start tree_end : Z) : result num :=
  match depth with
  | O => Raise RecursionError
  | S depth' =>
      if (start >? tree_end) || (end_ <? tree_start) then Ok NegInf
      else if (start <=? tree_start) && (end_ >=? tree_end) then
        v ← getitem tree index; Ok (Int v)
      else
        let mid := (tree_start + tree_end) / 2 in
        left_max ← query_helper depth' tree start (Z.min end_ mid)
                                (2 * index + 1) tree_start mid;
        right_max ← query_helper depth' tree (Z.max start (mid + 1)) end_
                                 (2 * index + 2) (mid + 1) tree_end;
        Ok (py_max left_max right_max)
  end.

Definition query (depth : nat) (tree : list Z) (start end_ : Z) : result num :=
  let n := Z.of_nat (length tree) / 2 in
  query_helper depth tree start end_ 0 0 (n - 1).

(** The aggregate recomputed from the array: [max(arr)], [-inf] when the
    array is empty. *)
Definition max_of (arr : list Z) : num :=
  fold_left (fun m x => py_max m (Int x)) arr NegInf.
(** The array of the script's example, and the tree [SegmentTree] builds
    for it. *)
Definition example_arr : list Z := [3; -5; 0; -7; 10].

Definition example_tree : list Z :=
  [10; 3; 10; 3; 0; -7; 10; 3; -5; 0; 0; 0; 0; 0; 0; 0; 0; 0; 0; 0].

End SegmentTree910.

(** ** Segment tree of sums ([python_13_feb_250.py])

    The file ends inside [update]; [build_tree] and [query] are complete. *)
Module SegmentTree250.
Local Open Scope Z_scope.

Fixpoint build_tree (depth : nat) (tree arr : list Z) (node start end_ : Z)
    : result (list Z) :=
  match depth with
  | O => Raise RecursionError
  | S depth' =>
      if start >? end_ then Ok tree
      else
        let mid := (start + end_) / 2 in
        tree ← build_tree depth' tree arr (2 * node + 1) start mid;
        tree ← build_tree depth' tree arr (2 * node + 2) (mid + 1) end_;
        v ← (if start =? end_ then getitem arr mid
             else l ← getitem tree (2 * node + 1);
                  r ← getitem tree (2 * node + 2);
                  Ok (l + r));
        setitem tree node v
  end.

Definition init (depth : nat) (arr : list Z) : result (list Z) :=
  let n := Z.of_nat (length arr) in
  let tree := replicate (Z.to_nat (4 * n)) 0 in
  build_tree depth tree arr 0 0 (n - 1).

Fixpoint query (depth : nat) (tree : list Z) (node start end_ left right : Z)
    : result Z :=
  match depth with
  | O => Raise RecursionError
  | S depth' =>
      if (start >? end_) || (left >? right) then Ok 0
      else
        let mid := (start + end_) / 2 in
        if (left <=? start) && (end_ <=? right) then getitem tree node
        else if left <=? mid then query depth' tree (2 * node + 1) start mid left right
        else query depth' tree (2 * node + 2) (mid + 1) end_ left right
  end.
End SegmentTree250.

(** ** Union-find ([python_17_feb_683.py])

    The object is its [parent] list; [find] both returns the root and
    rewrites the list, so each operation hands the list back. *)
Module UnionFind.
Local Open Scope Z_scope.

(** [UnionFind(n)]: [list(range(n))]. *)
Definition init (n : nat) : list Z := map Z.of_nat (seq 0 n).

Fixpoint find (depth : nat) (parent : list Z) (x : Z) : result (list Z * Z) :=
  match depth with
  | O => Raise RecursionError
  | S depth' =>
      px ← getitem parent x;
      if negb (px =? x) then
        '(parent, root) ← find depth' parent px;
        parent ← setitem parent x root;
        v ← getitem parent x;
        Ok (parent, v)
      else
        v ← getitem parent x;
        Ok (parent, v)
  end.

Definition union (depth : nat) (parent : list Z) (x y : Z) : result (list Z) :=
  '(parent, root_x) ← find depth parent x;
  '(parent, root_y) ← find depth parent y;
  if negb (root_x =? root_y) then setitem parent root_x root_y
  else Ok parent.

(** A sequence of [union] calls on one object. *)
Fixpoint unions (depth : nat) (parent : list Z) (calls : list (Z * Z))
    : result (list Z) :=
  match calls with
  | [] => Ok parent
  | (x, y) :: calls' =>
      parent ← union depth parent x y;
      unions depth parent calls'
  end.

(** [find(x) == find(y)]: the left call runs first and the right one
    sees the list it leaves. *)
Definition same_set (depth : nat) (parent : list Z) (x y : Z) : result bool :=
  '(parent, root_x) ← find depth parent x;
  '(parent, root_y) ← find depth parent y;
  Ok (root_x =? root_y).
(** *** The forest a [parent] list stands for

    [par p x y]: [x] is a non-negative index of [p] and [p[x]] is [y].
    [root_in p x r d]: following parents from [x] reaches the root [r]
    (an element that is its own parent) after [d] links. *)
Definition par (p : list Z) (x y : Z) : Prop :=
0 <= x ∧ p !! Z.to_nat x = Some y.

Inductive root_in (p : list Z) : Z → Z → nat → Prop :=
| root_here x : par p x x → root_in p x x 0
| root_up x y r d : par p x y → y ≠ x → root_in p y r d → root_in p x r (S d).

(** [on_path p x y]: following parents from [x] passes through [y]
    ([x] itself and its root included). *)
Definition on_path (p : list Z) : Z → Z → Prop := rtc (par p).

(** The elements a sequence of [union] calls has put together: the
    reflexive, symmetric and transitive closure of the unioned pairs. *)
Definition unioned (calls : list (Z * Z)) (x y : Z) : Prop := (x, y) ∈ calls.

Definition connected (calls : list (Z * Z)) : Z → Z → Prop := rtsc (unioned calls).

(** Calls whose two ids lie in the universe [[0, n)]. *)
Definition in_universe (n : nat) (x : Z) : Prop := 0 <= x < Z.of_nat n.

Definition valid_calls (n : nat) (calls : list (Z * Z)) : Prop :=
Forall (fun c => in_universe n c.1 ∧ in_universe n c.2) calls.
(** *** The invariant of a sequence of unions

    After the calls [calls] the list has its [n] cells, every element of
    the universe has a root at most [length calls] links away, and two
    elements have the same root exactly when the calls connect them. *)
Definition forest (n : nat) (p : list Z) (k : nat) : Prop :=
  length p = n ∧ ∀ x, in_universe n x → ∃ r d, root_in p x r d ∧ (d <= k)%nat.

Definition tracks (n : nat) (calls : list (Z * Z)) (p : list Z) : Prop :=
  ∀ x y rx ry dx dy, in_universe n x → in_universe n y →
    root_in p x rx dx → root_in p y ry dy → (rx = ry ↔ connected calls x y).


(** The number of sets: the cells that hold their own index. *)
Definition count_sets (p : list Z) : nat :=
length (filter (fun i => p !! i = Some (Z.of_nat i)) (seq 0 (length p))).
End UnionFind.

(** ** Breadth-first traversal ([python_09_feb_788.py]) *)
Module BFS.
Local Open Scope Z_scope.

(** [bfs_traversal] only ever subscripts its graph ([graph[node]]), so it
    takes a list of adjacency lists, as [create_graph] builds, as well
    as a dictionary of them.  [keys] lists the subscripts the container
    accepts. *)
Class Graph (G : Type) := {
  adj : G → Z → result (list Z);
  keys : G → list Z;
  adj_keys : ∀ g k ns, adj g k = Ok ns → k ∈ keys g
}.

Definition list_keys {A} (g : list A) : list Z :=
  map (fun i => Z.of_nat i - Z.of_nat (length g)) (seq 0 (2 * length g)).

#[global, refine] Instance list_graph : Graph (list (list Z)) :=
  {| adj := getitem; keys := list_keys |}.
Proof.
  intros g k ns. unfold getitem, norm_index, list_keys.
  intros Hk. apply list_elem_of_fmap.
  exists (Z.to_nat (k + Z.of_nat (length g))). rewrite elem_of_seq.
  destruct (0 <=? k) eqn:H0, (k <? Z.of_nat (length g)) eqn:H1,
    (- Z.of_nat (length g) <=? k) eqn:H2, (k <? 0) eqn:H3;
    simpl in Hk; try discriminate; lia.
Defined.

Fixpoint dict_get (d : list (Z * list Z)) (k : Z) : result (list Z) :=
  match d with
  | [] => Raise KeyError
  | (k', v) :: d' => if k =? k' then Ok v else dict_get d' k
  end.

#[global, refine] Instance dict_graph : Graph (list (Z * list Z)) :=
  {| adj := dict_get; keys := fun d => d.*1 |}.
Proof.
  intros g k ns. induction g as [|[k' v] g IH]; simpl; [discriminate|].
  destruct (k =? k') eqn:E.
  - intros _. apply Z.eqb_eq in E as ->. left.
  - intros H. right. auto.
Defined.

(** One turn of [for neighbor in graph[node]]. *)
Definition visit (st : list Z * gset Z) (neighbor : Z) : list Z * gset Z :=
  let '(queue, visited) := st in
  if decide (neighbor ∈ visited) then st
  else (queue ++ [neighbor], {[neighbor]} ∪ visited).

(** [while queue]; [printed] is what [print(node, end=' ')] has written
    so far.  [fuel] bounds the number of turns, [None] is a loop that
    has not finished within it. *)
Fixpoint bfs_loop {G} `{Graph G} (fuel : nat) (g : G)
    (queue : list Z) (visited : gset Z) (printed : list Z)
    : list Z * option (result unit) :=
  match queue with
  | [] => (printed, Some (Ok ()))
  | node :: queue =>
      match fuel with
      | O => (printed, None)
      | S fuel' =>
          let printed := printed ++ [node] in
          match adj g node with
          | Raise e => (printed, Some (Raise e))
          | Ok neighbors =>
              let '(queue, visited) := fold_left visit neighbors (queue, visited) in
              bfs_loop fuel' g queue visited printed
          end
      end
  end.

Definition bfs_traversal {G} `{Graph G} (fuel : nat) (g : G) (start_node : Z)
    : list Z * option (result unit) :=
  bfs_loop fuel g [start_node] {[start_node]} [].

Definition append_at (g : list (list Z)) (i : nat) (x : Z) : list (list Z) :=
  alter (fun l => l ++ [x]) i g.

Definition create_graph (n_nodes : nat) : list (list Z) :=
  fold_left
    (fun g i => append_at (append_at g i (Z.of_nat (i + 1))) (i + 1) (Z.of_nat i))
    (seq 0 (n_nodes - 1)) (replicate n_nodes []).

(** *** Hop counts

    [edge g u w]: [w] is listed in [g[u]].  A path of [k] edges is
    [nsteps (edge g) k]; the hop count is the length of a shortest one. *)
Definition edge {G} `{Graph G} (g : G) (u w : Z) : Prop :=
  ∃ ns, adj g u = Ok ns ∧ w ∈ ns.

Definition hops {G} `{Graph G} (g : G) (s v : Z) (d : nat) : Prop :=
  nsteps (edge g) d s v ∧ ∀ k, nsteps (edge g) k s v → (d ≤ k)%nat.

(** [v] is no nearer to [s] than [u]. *)
Definition le_hops {G} `{Graph G} (g : G) (s u v : Z) : Prop :=
∀ du dv, hops g s u du → hops g s v dv → (du <= dv)%nat.

(** [graph[x]] does not raise. *)
Definition is_node {G} `{Graph G} (g : G) (x : Z) : Prop := ∃ ns, adj g x = Ok ns.

(** Every neighbour listed in the graph is itself a node of the graph. *)
Definition closed {G} `{Graph G} (g : G) : Prop := ∀ u w, edge g u w → is_node g w.

(** *** The invariant of the [while] loop

    [printed] are the nodes already dequeued, [queue] those waiting,
    [visited] the set of both.  In discovery order ([printed ++ queue])
    the hop counts never decrease, the queue spans at most two
    consecutive levels, and every neighbour of a dequeued node has been
    discovered. *)
Record bfs_inv {G} `{Graph G} (g : G) (s : Z)
    (printed queue : list Z) (visited : gset Z) : Prop := {
  inv_nodup : NoDup (printed ++ queue);
  inv_visited : ∀ x, x ∈ visited ↔ x ∈ printed ++ queue;
  inv_start : s ∈ visited;
  inv_nodes : ∀ x, x ∈ printed ++ queue → is_node g x;
  inv_hops : ∀ x, x ∈ printed ++ queue → ∃ d, hops g s x d;
  inv_sorted : StronglySorted (le_hops g s) (printed ++ queue);
  inv_span : ∀ u v du dv, head queue = Some u → v ∈ queue →
             hops g s u du → hops g s v dv → (dv <= S du)%nat;
  inv_done : ∀ x w, x ∈ printed → edge g x w → w ∈ visited
}.

(** A check of [closed] for a list of adjacency lists: every neighbour is
    an index the list accepts. *)
Definition list_closedb (g : list (list Z)) : bool :=
forallb (forallb (fun w => bool_decide (is_Some (norm_index (length g) w)))) g.

(** The graph 0 - 1, 0 - 2. *)
Definition fork : list (list Z) := [[1; 2]; [0]; [0]].
End BFS.

(** ** Comparison by a key

    Elements compared through an integer key, as [a.key <= b.key]. *)
Definition key_leb {A : Type} (key : A → Z) (a b : A) : bool := (key a <=? key b)%Z.
Definition key_le {A : Type} (key : A → Z) (a b : A) : Prop := (key a <= key b)%Z.

(** The adjacency list of node [i] in the path 0 - 1 - ... - (n-1):
    its predecessor, then its successor. *)
Definition path_row (n i : nat) : list Z :=
  (if decide (i = 0) then [] else [Z.of_nat i - 1]%Z)
  ++ (if decide (i + 1 < n) then [Z.of_nat i + 1]%Z else []).

(** ** The nodes of the max segment tree

    [arr[s .. e]], both ends included, cut to the array. *)
Definition slice (arr : list Z) (s e : Z) : list Z :=
  drop (Z.to_nat s) (take (Z.to_nat (e + 1)) arr).

(** The calls [build_tree(arr, s, e, i)] that [SegmentTree(arr)] makes
    for an array of [n] elements: cell [i] stands for [arr[s .. e]]. *)
Inductive node_of (n : Z) : Z → Z → Z → Prop :=
| node_root : node_of n 0 0 (n - 1)
| node_left i s e :
    node_of n i s e → (s < e)%Z → node_of n (2 * i + 1) s ((s + e) / 2)
| node_right i s e :
    node_of n i s e → (s < e)%Z → node_of n (2 * i + 2) ((s + e) / 2 + 1) e.

(** [below i j]: cell [j] lies in the subtree of cell [i]. *)
Inductive below (i : Z) : Z → Prop :=
| below_root : below i i
| below_left j : below i j → below i (2 * j + 1)
| below_right j : below i j → below i (2 * j + 2).

(** [built tree arr i s e]: the subtree of cell [i] is as
    [build_tree(arr, s, e, i)] leaves it. *)
Inductive built (tree arr : list Z) : Z → Z → Z → Prop :=
| built_leaf i s v :
    getitem arr s = Ok v → getitem tree i = Ok v → built tree arr i s s
| built_node i s e l r :
    (s < e)%Z →
    built tree arr (2 * i + 1) s ((s + e) / 2) →
    built tree arr (2 * i + 2) ((s + e) / 2 + 1) e →
    getitem tree (2 * i + 1) = Ok l →
    getitem tree (2 * i + 2) = Ok r →
    getitem tree i = Ok (Z.max l r) →
    built tree arr i s e.

(** * Properties *)

(** [inspect x] is [x] under any name it is known to be equal to. *)
Lemma inspect_eq {A : Type} (x y : A) (H : x = y) : inspect x = exist _ y H.
Proof. destruct H. reflexivity. Qed.

(** ** Monotonic stack *)
Section StackFacts.
Import MonotonicStack.
Local Open Scope Z_scope.

Section AnyValues.
Context {A : Type} (ltb : A → A → bool).

Lemma evict_nil val : evict ltb [] val = [].
Proof. simp evict. reflexivity. Qed.

Lemma evict_snoc stack top val :
  evict ltb (stack ++ [top]) val
  = if ltb val top then evict ltb stack val else stack ++ [top].
Proof.
  rewrite evict_equation_1, (inspect_eq _ _ (last_snoc top stack)).
  unfold evict_unfold_clause_1.
  destruct (ltb val top).
  - rewrite evict_clause_1_clause_2_equation_1. by rewrite removelast_last.
  - reflexivity.
Qed.

Lemma evict_prefix stack val : ∃ rest, stack = evict ltb stack val ++ rest.
Proof.
  induction stack as [|top stack IH] using rev_ind.
  - exists []. by rewrite evict_nil.
  - rewrite evict_snoc. destruct (ltb val top).
    + destruct IH as [rest Hrest]. exists (rest ++ [top]).
      by rewrite app_assoc, <- Hrest.
    + exists []. by rewrite app_nil_r.
Qed.

(** The loop stops on a top the value is not less than. *)
Lemma evict_top_not_less stack val top :
  last (evict ltb stack val) = Some top → ltb val top = false.
Proof.
  induction stack as [|x stack IH] using rev_ind.
  - by rewrite evict_nil.
  - rewrite evict_snoc. destruct (ltb val x) eqn:Hlt; [done|].
    rewrite last_snoc. by intros [= <-].
Qed.

(** *** Values in a total order

    All that is used of the order: an element that is not less than a
    second one, which is not less than a third, is not less than the
    third. *)
Hypothesis not_less_trans :
  ∀ a b c, ltb b a = false → ltb c b = false → ltb c a = false.

Lemma evict_not_above stack val :
  StronglySorted (fun a b => ltb b a = false) stack →
  Forall (fun x => ltb val x = false) (evict ltb stack val).
Proof.
  induction stack as [|top stack IH] using rev_ind; intros Hs.
  - rewrite evict_nil. constructor.
  - rewrite evict_snoc. destruct (ltb val top) eqn:Hlt.
    + apply IH. by apply StronglySorted_app_1_l in Hs.
    + apply Forall_app. split; [|by repeat constructor].
      apply Forall_forall. intros x Hx.
      apply (not_less_trans x top val); [|done].
      apply (StronglySorted_app_1_elem_of _ _ _ x top Hs Hx). left.
Qed.

Lemma push_strongly_sorted stack val :
  StronglySorted (fun a b => ltb b a = false) stack →
  StronglySorted (fun a b => ltb b a = false) (push ltb stack val).
Proof.
  intros Hs. unfold push. apply StronglySorted_app_2.
  - intros x1 x2 Hx1 Hx2. apply list_elem_of_singleton in Hx2 as ->.
    pose proof (evict_not_above stack val Hs) as Hall.
    rewrite Forall_forall in Hall. by apply Hall.
  - destruct (evict_prefix stack val) as [rest Hrest].
    rewrite Hrest in Hs. by apply StronglySorted_app_1_l in Hs.
  - repeat constructor.
Qed.
End AnyValues.

(** A strict total order is such an order. *)
Lemma strict_total_order_not_less_trans {A : Type} (ltb : A → A → bool) :
  (∀ a b c, ltb a b = true → ltb b c = true → ltb a c = true) →
  (∀ a b, ltb a b = true ∨ a = b ∨ ltb b a = true) →
  ∀ a b c, ltb b a = false → ltb c b = false → ltb c a = false.
Proof.
  intros Htrans Htotal a b c Hba Hcb.
  destruct (ltb c a) eqn:Hca; [|done].
  destruct (Htotal a b) as [Hab|[->|Hab']]; [|congruence|congruence].
  rewrite (Htrans c a b Hca Hab) in Hcb. done.
Qed.

(** *** Integers *)
Lemma evict_top stack val top :
  last (evict Z.ltb stack val) = Some top → top <= val.
Proof. intros Hlt%evict_top_not_less. lia. Qed.

Lemma Sorted_app_l (l1 l2 : list Z) : Sorted Z.le (l1 ++ l2) → Sorted Z.le l1.
Proof.
  induction l1 as [|a l1 IH]; simpl; [constructor|].
  intros Hs. apply Sorted_inv in Hs as [Hs Hhd].
  constructor; [auto|].
  destruct l1; [constructor|]. apply HdRel_inv in Hhd. by constructor.
Qed.

Lemma Sorted_snoc (l : list Z) (v : Z) :
  Sorted Z.le l → (∀ top, last l = Some top → top <= v) → Sorted Z.le (l ++ [v]).
Proof.
  induction l as [|a l IH]; simpl; intros Hs Htop.
  - repeat constructor.
  - apply Sorted_inv in Hs as [Hs Hhd]. constructor.
    + apply IH; [done|]. intros top Hl. apply Htop.
      destruct l; [done|]. done.
    + destruct l as [|b l]; simpl.
      * constructor. by apply Htop.
      * apply HdRel_inv in Hhd. by constructor.
Qed.

Lemma push_sorted stack val :
  Sorted Z.le stack → Sorted Z.le (push Z.ltb stack val).
Proof.
  intros Hs. unfold push. apply Sorted_snoc.
  - destruct (evict_prefix Z.ltb stack val) as [rest Hrest].
    rewrite Hrest in Hs. by apply Sorted_app_l in Hs.
  - apply evict_top.
Qed.

(** C6 (amended): for values that [<] orders totally (integers,
    strings, floats other than [nan]; all that is used is that "not less
    than" is transitive), whatever values are pushed, in whatever order,
    onto an empty monotonic stack (no pop in between), the stack read
    from bottom to top is in non-decreasing order: no element is less
    than any element below it. *)
Theorem pushes_leave_stack_sorted {A : Type} (ltb : A → A → bool) (vals : list A) :
  (∀ a b c, ltb b a = false → ltb c b = false → ltb c a = false) →
  StronglySorted (fun a b => ltb b a = false) (fold_left (push ltb) vals init).
Proof.
  intros Htrans.
  assert (∀ stack, StronglySorted (fun a b => ltb b a = false) stack →
            StronglySorted (fun a b => ltb b a = false)
              (fold_left (push ltb) vals stack)) as H.
  { induction vals as [|v vals IH]; simpl; intros stack Hs; [done|].
    by apply IH, push_strongly_sorted. }
  apply H. constructor.
Qed.

Lemma pushes_leave_stack_sorted_witness :
  StronglySorted (fun a b => (b <? a) = false)
    (fold_left (push Z.ltb) [5; 2; 8; 3; 3; 7] init).
Proof.
  apply (pushes_leave_stack_sorted Z.ltb [5; 2; 8; 3; 3; 7]).
  intros a b c. lia.
Defined.

(** C6 as worded, "every finite sequence of push operations", fails on
    values the code accepts: after [push(5.0)], [push(nan)], [push(1.0)]
    every test [val < top] has been false, nothing was evicted, and 1.0
    lies above 5.0. *)
Lemma pushes_of_nan_counterexample :
  fold_left (push float_ltb) [Float 5; NaN; Float 1] init
  = [Float 5; NaN; Float 1]
  ∧ float_ltb (Float 1) (Float 5) = true
  ∧ ¬ StronglySorted (fun a b => float_ltb b a = false) [Float 5; NaN; Float 1]
  ∧ ¬ Sorted (fun a b => float_leb a b = true) [Float 5; NaN; Float 1].
Proof.
  split; [reflexivity|]. split; [reflexivity|]. split.
  - intros Hs. apply StronglySorted_inv in Hs as [_ Hall].
    rewrite Forall_forall in Hall.
    specialize (Hall (Float 1)). simpl in Hall.
    assert (true = false) as Habs; [|discriminate].
    apply Hall. right. left.
  - intros Hs. apply Sorted_inv in Hs as [_ Hhd].
    apply HdRel_inv in Hhd. discriminate.
Qed.

(** The pushes of the script: 2 evicts 5. *)
Example push_demo : fold_left (push Z.ltb) [5; 2; 8] init = [2; 8].
Proof. reflexivity. Qed.
End StackFacts.

(** ** Dijkstra *)
Section DijkstraFacts.
Import Dijkstra.
Local Open Scope string_scope.

(** Had the caller bound a global [previous = {}] before the call, the
    example would give the distances of the documentation and a
    predecessor map that leads from every node back to the source. *)
Lemma dijkstra_example_with_global_previous (fuel : nat) :
  dijkstra (Some []) (5 + fuel) example_graph "A"
  = Some (Ok ([("A", 0); ("B", 1); ("C", 3); ("D", 5)]%Z,
              [("B", "A"); ("C", "A"); ("D", "B")])).
Proof. vm_compute. reflexivity. Qed.

Lemma walk_back_example :
  walk_back 4 [("B", "A"); ("C", "A"); ("D", "B")] "A" "D" []
  = Some (Ok ["A"; "B"; "D"]).
Proof. reflexivity. Qed.

(** C1 (the code departs from the claim): on the example graph with
    source A, [dijkstra] as written returns neither the distances
    A:0, B:1, C:3, D:5 nor a predecessor map: the name [previous] is
    never bound, and the first relaxation (A to B) raises [NameError],
    whatever the number of loop turns allowed. *)
Theorem dijkstra_example_raises_NameError (fuel : nat) :
  dijkstra None (S fuel) example_graph "A" = Some (Raise NameError).
Proof. reflexivity. Qed.
End DijkstraFacts.

(** ** Segment trees *)
Section SegmentTreeFacts.
Local Open Scope Z_scope.

Lemma init_910_example (depth : nat) :
  SegmentTree910.init (4 + depth) SegmentTree910.example_arr = Ok SegmentTree910.example_tree.
Proof. reflexivity. Qed.

(** Queried over the bounds the tree was built with, the root answers
    with the maximum of the array. *)
Lemma query_helper_910_built_bounds (depth : nat) :
  SegmentTree910.query_helper (S depth) SegmentTree910.example_tree 0 4 0 0 4
  = Ok (SegmentTree910.max_of SegmentTree910.example_arr).
Proof. reflexivity. Qed.

(** A leaf of the sum tree is never reached: on a one-element segment
    [build_tree] calls itself on the same segment. *)
Lemma build_tree_250_never_returns (depth : nat) :
  ∀ tree arr node start end_,
    start <= end_ →
    SegmentTree250.build_tree depth tree arr node start end_ = Raise RecursionError.
Proof.
  induction depth as [|depth IH]; intros tree arr node start end_ Hle; [done|].
  simpl. destruct (start >? end_) eqn:Hgt; [lia|].
  rewrite IH; [done|].
  apply Z.div_le_lower_bound; lia.
Qed.

(** C2 (the code departs from the claim): on the script's own array
    [3, -5, 0, -7, 10] the max-tree answers the full-range query (0, 4)
    with 3 while the maximum of the array is 10, because [query] takes
    [len(self.tree) // 2] for the number of leaves of a tree allocated
    with [4 * n] cells; and the sum-tree is never constructed for a
    non-empty array, its [build_tree] exhausting every recursion depth. *)
Theorem full_range_query_departs (depth : nat) :
  (tree ← SegmentTree910.init (4 + depth) SegmentTree910.example_arr;
   SegmentTree910.query (3 + depth) tree 0 4) = Ok (SegmentTree910.Int 3)
  ∧ SegmentTree910.max_of SegmentTree910.example_arr = SegmentTree910.Int 10
  ∧ ∀ x arr, SegmentTree250.init depth (x :: arr) = Raise RecursionError.
Proof.
  split; [reflexivity|]. split; [reflexivity|].
  intros x arr. unfold SegmentTree250.init.
  apply build_tree_250_never_returns. simpl length. lia.
Qed.

(** C3 (the code departs from the claim): on the script's own array
    [3, -5, 0, -7, 10] the point query (0, 0) returns 0, the filler of a
    cell [build_tree] never wrote, instead of the element 3; on the
    one-element array [5] it returns 0 instead of 5.  The cause is the
    leaf count [len(self.tree) // 2] of [query], as for C2. *)
Theorem point_query_departs (depth : nat) :
  (tree ← SegmentTree910.init (4 + depth) SegmentTree910.example_arr;
   SegmentTree910.query (5 + depth) tree 0 0) = Ok (SegmentTree910.Int 0)
  ∧ getitem SegmentTree910.example_arr 0 = Ok 3
  ∧ (tree ← SegmentTree910.init (1 + depth) [5];
     SegmentTree910.query (2 + depth) tree 0 0) = Ok (SegmentTree910.Int 0).
Proof. repeat split; reflexivity. Qed.
End SegmentTreeFacts.

(** ** Merge sort *)

Section MergeFacts.
Context {A : Type} (leb : A → A → bool).

Lemma merge_ref_nil_r (l : list A) : merge_ref leb l [] = l.
Proof. by destruct l. Qed.

(** *** The pop-based merge *)

Lemma merge_loop_ref (l r merged : list A) :
  ∀ l' r' merged', MergeSort547.merge_loop leb l r merged = (l', r', merged') →
  (merged' ++ l') ++ r' = merged ++ merge_ref leb l r.
Proof.
  funelim (MergeSort547.merge_loop leb l r merged); intros l' r' merged' Hloop.
  - injection Hloop as <- <- <-. by rewrite app_nil_r.
  - injection Hloop as <- <- <-. by rewrite app_nil_r.
  - rewrite (H _ _ _ Hloop). simpl. by rewrite Heq, <- app_assoc.
  - rewrite (H _ _ _ Hloop). simpl. by rewrite Heq, <- app_assoc.
Qed.

Lemma merge_547_ref (l r : list A) : MergeSort547.merge leb l r = merge_ref leb l r.
Proof.
  unfold MergeSort547.merge.
  destruct (MergeSort547.merge_loop leb l r []) as [[l' r'] merged'] eqn:Hloop.
  by rewrite (merge_loop_ref _ _ _ _ _ _ Hloop).
Qed.

(** *** The index-based merge *)

Lemma merge_rest_stop (src merged : list A) (i : nat) :
  src !! i = None → MergeSort246.merge_rest src merged i = merged.
Proof.
  intros Hi. by rewrite MergeSort246.merge_rest_equation_1, (inspect_eq _ _ Hi).
Qed.

Lemma merge_rest_step (src merged : list A) (i : nat) (a : A) :
  src !! i = Some a →
  MergeSort246.merge_rest src merged i = MergeSort246.merge_rest src (merged ++ [a]) (S i).
Proof.
  intros Hi. by rewrite MergeSort246.merge_rest_equation_1, (inspect_eq _ _ Hi).
Qed.

Lemma merge_rest_drop (src : list A) (k : nat) :
  ∀ merged i, length src - i = k →
  MergeSort246.merge_rest src merged i = merged ++ drop i src.
Proof.
  induction k as [|k IH]; intros merged i Hk.
  - rewrite merge_rest_stop by (apply lookup_ge_None; lia).
    rewrite drop_ge by lia. by rewrite app_nil_r.
  - destruct (lookup_lt_is_Some_2 src i) as [a Ha]; [lia|].
    rewrite (merge_rest_step _ _ _ _ Ha), IH by lia.
    by rewrite (drop_S _ _ _ Ha), <- app_assoc.
Qed.

Lemma merge_both_stop_l (l r merged : list A) (li ri : nat) :
  l !! li = None → MergeSort246.merge_both leb l r merged li ri = (merged, li, ri).
Proof.
  intros Hl. by rewrite MergeSort246.merge_both_equation_1, (inspect_eq _ _ Hl).
Qed.

Lemma merge_both_stop_r (l r merged : list A) (li ri : nat) (a : A) :
  l !! li = Some a → r !! ri = None →
  MergeSort246.merge_both leb l r merged li ri = (merged, li, ri).
Proof.
  intros Hl Hr. rewrite MergeSort246.merge_both_equation_1, (inspect_eq _ _ Hl).
  unfold MergeSort246.merge_both_unfold_clause_1.
  by rewrite (inspect_eq _ _ Hr).
Qed.

Lemma merge_both_step (l r merged : list A) (li ri : nat) (a b : A) :
  l !! li = Some a → r !! ri = Some b →
  MergeSort246.merge_both leb l r merged li ri =
  if leb a b then MergeSort246.merge_both leb l r (merged ++ [a]) (S li) ri
  else MergeSort246.merge_both leb l r (merged ++ [b]) li (S ri).
Proof.
  intros Hl Hr. rewrite MergeSort246.merge_both_equation_1, (inspect_eq _ _ Hl).
  unfold MergeSort246.merge_both_unfold_clause_1.
  rewrite (inspect_eq _ _ Hr).
  unfold MergeSort246.merge_both_unfold_clause_1_clause_2.
  by destruct (leb a b).
Qed.

Lemma merge_both_ref (l r : list A) (k : nat) :
  ∀ merged li ri, (length l - li) + (length r - ri) = k →
  ∀ merged' li' ri',
    MergeSort246.merge_both leb l r merged li ri = (merged', li', ri') →
    (merged' ++ drop li' l) ++ drop ri' r = merged ++ merge_ref leb (drop li l) (drop ri r).
Proof.
  induction k as [k IH] using lt_wf_ind. intros merged li ri Hk merged' li' ri' Hboth.
  destruct (l !! li) as [a|] eqn:Hl.
  - destruct (r !! ri) as [b|] eqn:Hr.
    + rewrite (merge_both_step _ _ _ _ _ _ _ Hl Hr) in Hboth.
      apply lookup_lt_Some in Hl as Hli. apply lookup_lt_Some in Hr as Hri.
      rewrite (drop_S _ _ _ Hl), (drop_S _ _ _ Hr). simpl.
      destruct (leb a b).
      * rewrite (IH (length l - S li + (length r - ri)) ltac:(lia) _ _ _ eq_refl _ _ _ Hboth).
        by rewrite (drop_S _ _ _ Hr), <- app_assoc.
      * rewrite (IH (length l - li + (length r - S ri)) ltac:(lia) _ _ _ eq_refl _ _ _ Hboth).
        by rewrite (drop_S _ _ _ Hl), <- app_assoc.
    + rewrite (merge_both_stop_r _ _ _ _ _ _ Hl Hr) in Hboth.
      injection Hboth as <- <- <-.
      rewrite (drop_ge r ri) by (by apply lookup_ge_None).
      by rewrite merge_ref_nil_r, app_nil_r.
  - rewrite (merge_both_stop_l _ _ _ _ _ Hl) in Hboth.
    injection Hboth as <- <- <-.
    rewrite (drop_ge l li) by (by apply lookup_ge_None).
    by rewrite app_nil_r.
Qed.

Lemma merge_246_ref (l r : list A) : MergeSort246.merge leb l r = merge_ref leb l r.
Proof.
  unfold MergeSort246.merge.
  destruct (MergeSort246.merge_both leb l r [] 0 0) as [[merged li] ri] eqn:Hboth.
  rewrite !(merge_rest_drop _ _ _ _ eq_refl).
  by rewrite (merge_both_ref _ _ _ _ _ _ eq_refl _ _ _ Hboth).
Qed.

(** *** The two sorts *)

Lemma merge_sort_246_unfold (arr : list A) :
  MergeSort246.merge_sort leb arr =
  if length arr <=? 1 then arr
  else MergeSort246.merge leb
         (MergeSort246.merge_sort leb (take (length arr / 2) arr))
         (MergeSort246.merge_sort leb (drop (length arr / 2) arr)).
Proof.
  rewrite MergeSort246.merge_sort_equation_1.
  assert (∃ b, (length arr <=? 1) = b) as [b Hlen] by eauto.
  rewrite (inspect_eq _ _ Hlen).
  destruct b; unfold MergeSort246.merge_sort_unfold_clause_1; by rewrite Hlen.
Qed.

Lemma merge_sort_547_unfold (arr : list A) :
  MergeSort547.merge_sort leb arr =
  if length arr <=? 1 then arr
  else MergeSort547.merge leb
         (MergeSort547.merge_sort leb (take (length arr / 2) arr))
         (MergeSort547.merge_sort leb (drop (length arr / 2) arr)).
Proof.
  rewrite MergeSort547.merge_sort_equation_1.
  assert (∃ b, (length arr <=? 1) = b) as [b Hlen] by eauto.
  rewrite (inspect_eq _ _ Hlen).
  destruct b; unfold MergeSort547.merge_sort_unfold_clause_1; by rewrite Hlen.
Qed.

(** Both halves of a list of two or more elements are shorter than it. *)
Lemma halves_shorter (arr : list A) :
  (length arr <=? 1) = false →
  length (take (length arr / 2) arr) < length arr
  ∧ length (drop (length arr / 2) arr) < length arr.
Proof.
  intros Hlen%Nat.leb_gt. rewrite length_take, length_drop.
  pose proof (Nat.div_str_pos (length arr) 2).
  pose proof (Nat.div_lt (length arr) 2). lia.
Qed.
End MergeFacts.

(** C10: the merge sort with the index-based merge and the merge sort
    with the pop-based merge return the same list on every input,
    whatever the comparison [<=] of the elements does. *)
Theorem merge_sorts_agree {A : Type} (leb : A → A → bool) (arr : list A) :
  MergeSort246.merge_sort leb arr = MergeSort547.merge_sort leb arr.
Proof.
  remember (length arr) as n eqn:Hn. revert arr Hn.
  induction n as [n IH] using lt_wf_ind. intros arr ->.
  rewrite merge_sort_246_unfold, merge_sort_547_unfold.
  destruct (length arr <=? 1) eqn:Hlen; [done|].
  destruct (halves_shorter arr Hlen) as [Htake Hdrop].
  rewrite (IH _ Htake _ eq_refl), (IH _ Hdrop _ eq_refl).
  by rewrite merge_246_ref, merge_547_ref.
Qed.

Section SortedFacts.
Local Open Scope Z_scope.

Lemma merge_ref_HdRel (a : Z) (l r : list Z) :
  HdRel Z.le a l → HdRel Z.le a r → HdRel Z.le a (merge_ref Z.leb l r).
Proof.
  intros Hl Hr. destruct l as [|x l]; [done|]. destruct r as [|y r]; [done|].
  simpl. destruct (x <=? y); constructor.
  - by apply HdRel_inv in Hl.
  - by apply HdRel_inv in Hr.
Qed.

Lemma merge_ref_sorted (l : list Z) :
  ∀ r, Sorted Z.le l → Sorted Z.le r → Sorted Z.le (merge_ref Z.leb l r).
Proof.
  induction l as [|x l IHl]; [done|].
  induction r as [|y r IHr]; intros Hl Hr; [done|].
  simpl. destruct (x <=? y) eqn:Hxy.
  - apply Sorted_inv in Hl as [Hl Hx]. constructor.
    + by apply IHl.
    + apply merge_ref_HdRel; [done|]. constructor. lia.
  - apply Sorted_inv in Hr as [Hr Hy]. constructor.
    + by apply IHr.
    + apply (merge_ref_HdRel y (x :: l) r); [|done]. constructor. lia.
Qed.

Lemma merge_sort_sorted (arr : list Z) : Sorted Z.le (MergeSort246.merge_sort Z.leb arr).
Proof.
  remember (length arr) as n eqn:Hn. revert arr Hn.
  induction n as [n IH] using lt_wf_ind. intros arr ->.
  rewrite merge_sort_246_unfold.
  destruct (length arr <=? 1)%nat eqn:Hlen.
  - apply Nat.leb_le in Hlen. destruct arr as [|a [|b arr]]; simpl in Hlen.
    + constructor.
    + repeat constructor.
    + lia.
  - destruct (halves_shorter arr Hlen) as [Htake Hdrop].
    rewrite merge_246_ref.
    apply merge_ref_sorted; [apply (IH _ Htake _ eq_refl)|apply (IH _ Hdrop _ eq_refl)].
Qed.

(** *** Any total order

    The same for elements of any type whose [<=] is total and
    transitive. *)
Section TotalOrder.
Context {A : Type} (leb : A → A → bool).
Hypothesis leb_total : ∀ a b, leb a b = true ∨ leb b a = true.
Hypothesis leb_trans : ∀ a b c, leb a b = true → leb b c = true → leb a c = true.

Lemma merge_ref_le_HdRel (a : A) (l r : list A) :
  HdRel (fun a b => leb a b = true) a l →
  HdRel (fun a b => leb a b = true) a r →
  HdRel (fun a b => leb a b = true) a (merge_ref leb l r).
Proof.
  intros Hl Hr. destruct l as [|x l]; [done|]. destruct r as [|y r]; [done|].
  simpl. destruct (leb x y); constructor.
  - by apply HdRel_inv in Hl.
  - by apply HdRel_inv in Hr.
Qed.

Lemma merge_ref_le_sorted (l : list A) :
  ∀ r, Sorted (fun a b => leb a b = true) l →
       Sorted (fun a b => leb a b = true) r →
       Sorted (fun a b => leb a b = true) (merge_ref leb l r).
Proof.
  induction l as [|x l IHl]; [done|].
  induction r as [|y r IHr]; intros Hl Hr; [done|].
  simpl. destruct (leb x y) eqn:Hxy.
  - apply Sorted_inv in Hl as [Hl Hx]. constructor.
    + by apply IHl.
    + apply merge_ref_le_HdRel; [done|]. by constructor.
  - apply Sorted_inv in Hr as [Hr Hy]. constructor.
    + by apply IHr.
    + apply (merge_ref_le_HdRel y (x :: l) r); [|done]. constructor.
      destruct (leb_total x y); congruence.
Qed.

Lemma merge_sort_le_sorted (arr : list A) :
  Sorted (fun a b => leb a b = true) (MergeSort246.merge_sort leb arr).
Proof.
  remember (length arr) as n eqn:Hn. revert arr Hn.
  induction n as [n IH] using lt_wf_ind. intros arr ->.
  rewrite merge_sort_246_unfold.
  destruct (length arr <=? 1)%nat eqn:Hlen.
  - apply Nat.leb_le in Hlen. destruct arr as [|a [|b arr]]; simpl in Hlen.
    + constructor.
    + repeat constructor.
    + lia.
  - destruct (halves_shorter arr Hlen) as [Htake Hdrop].
    rewrite merge_246_ref.
    apply merge_ref_le_sorted;
      [apply (IH _ Htake _ eq_refl)|apply (IH _ Hdrop _ eq_refl)].
Qed.

Lemma Sorted_app_inv (R : A → A → Prop) (l1 l2 : list A) :
  Sorted R (l1 ++ l2) → Sorted R l1 ∧ Sorted R l2.
Proof.
  induction l1 as [|a l1 IH]; simpl; [by split; [constructor|]|].
  intros Hs. apply Sorted_inv in Hs as [Hs Hhd].
  destruct (IH Hs) as [H1 H2]. split; [|done].
  constructor; [done|].
  destruct l1; [constructor|]. apply HdRel_inv in Hhd. by constructor.
Qed.

(** Merging the two parts of a sorted list gives the list back. *)
Lemma merge_ref_app_le_sorted (l r : list A) :
  Sorted (fun a b => leb a b = true) (l ++ r) → merge_ref leb l r = l ++ r.
Proof.
  induction l as [|x l IH]; intros Hs; [done|].
  destruct r as [|y r]; [by rewrite app_nil_r|].
  assert (leb x y = true) as Hxy.
  { apply Sorted_StronglySorted in Hs; [|intros a b c; apply leb_trans].
    apply StronglySorted_inv in Hs as [_ Hall].
    rewrite Forall_forall in Hall. apply Hall.
    change (y ∈ l ++ y :: r). apply elem_of_app. right. left. }
  simpl. rewrite Hxy. f_equal.
  apply IH. simpl in Hs. by apply Sorted_inv in Hs as [Hs _].
Qed.

Lemma merge_sort_fixes_le_sorted (arr : list A) :
  Sorted (fun a b => leb a b = true) arr → MergeSort246.merge_sort leb arr = arr.
Proof.
  remember (length arr) as n eqn:Hn. revert arr Hn.
  induction n as [n IH] using lt_wf_ind. intros arr -> Hs.
  rewrite merge_sort_246_unfold.
  destruct (length arr <=? 1)%nat eqn:Hlen; [done|].
  destruct (halves_shorter arr Hlen) as [Htake Hdrop].
  rewrite <- (take_drop (length arr / 2) arr) in Hs.
  destruct (Sorted_app_inv _ _ _ Hs) as [Hs1 Hs2].
  rewrite (IH _ Htake _ eq_refl) by done.
  rewrite (IH _ Hdrop _ eq_refl) by done.
  rewrite merge_246_ref, merge_ref_app_le_sorted by done.
  apply take_drop.
Qed.
End TotalOrder.

(** C9 (amended): for elements that [<=] orders totally (integers,
    strings, floats other than [nan]), sorting a list that [merge_sort]
    has sorted returns the same list, the empty list is returned as it
    is, and so is every list already in non-decreasing order. *)
Theorem merge_sort_idempotent {A : Type} (leb : A → A → bool) (xs : list A) :
  (∀ a b, leb a b = true ∨ leb b a = true) →
  (∀ a b c, leb a b = true → leb b c = true → leb a c = true) →
  MergeSort246.merge_sort leb (MergeSort246.merge_sort leb xs)
  = MergeSort246.merge_sort leb xs
  ∧ MergeSort246.merge_sort leb [] = []
  ∧ (Sorted (fun a b => leb a b = true) xs → MergeSort246.merge_sort leb xs = xs).
Proof.
  intros Htotal Htrans. split; [|split].
  - apply merge_sort_fixes_le_sorted; [done|]. by apply merge_sort_le_sorted.
  - reflexivity.
  - by apply merge_sort_fixes_le_sorted.
Qed.

Lemma merge_sort_idempotent_witness :
  MergeSort246.merge_sort Z.leb
    (MergeSort246.merge_sort Z.leb [64; 34; 25; 12; 22; 11; 90])
  = MergeSort246.merge_sort Z.leb [64; 34; 25; 12; 22; 11; 90]
  ∧ MergeSort246.merge_sort Z.leb [11; 12; 22; 25; 34; 64; 90]
    = [11; 12; 22; 25; 34; 64; 90].
Proof.
  split.
  - apply (merge_sort_idempotent Z.leb [64; 34; 25; 12; 22; 11; 90]); intros; lia.
  - apply (merge_sort_idempotent Z.leb [11; 12; 22; 25; 34; 64; 90]);
      [intros; lia|intros; lia|]. repeat constructor.
Defined.

(** C9 as worded, "for every finite list", fails on values the code
    accepts: every [<=] with [nan] is false, so [merge] takes the right
    element first each time, and sorting [[nan, 1.0]] twice gives the
    list back in its first order. *)
Lemma merge_sort_of_nan_counterexample :
  MergeSort246.merge_sort float_leb [NaN; Float 1] = [Float 1; NaN]
  ∧ MergeSort246.merge_sort float_leb [Float 1; NaN] = [NaN; Float 1]
  ∧ MergeSort246.merge_sort float_leb (MergeSort246.merge_sort float_leb [NaN; Float 1])
    ≠ MergeSort246.merge_sort float_leb [NaN; Float 1].
Proof.
  assert (MergeSort246.merge_sort float_leb [NaN; Float 1] = [Float 1; NaN]) as H1
    by (vm_compute; reflexivity).
  assert (MergeSort246.merge_sort float_leb [Float 1; NaN] = [NaN; Float 1]) as H2
    by (vm_compute; reflexivity).
  split; [done|]. split; [done|]. rewrite H1, H2. discriminate.
Qed.

(** The array of both scripts. *)
Example merge_sort_246_demo :
  MergeSort246.merge_sort Z.leb [64; 34; 25; 12; 22; 11; 90] = [11; 12; 22; 25; 34; 64; 90].
Proof. vm_compute. reflexivity. Qed.

Example merge_sort_547_demo :
  MergeSort547.merge_sort Z.leb [64; 34; 25; 12; 22; 11; 90] = [11; 12; 22; 25; 34; 64; 90].
Proof. vm_compute. reflexivity. Qed.
End SortedFacts.

(** ** Subscripts within range *)
Section SubscriptFacts.
Context {A : Type}.
Implicit Types (l : list A) (i : Z) (a : A).

Lemma norm_index_nonneg (len : nat) i :
  (0 <= i < Z.of_nat len)%Z → norm_index len i = Some (Z.to_nat i).
Proof.
  intros [H0 H1]. unfold norm_index.
  apply Z.leb_le in H0 as ->. by apply Z.ltb_lt in H1 as ->.
Qed.

Lemma norm_index_beyond (len : nat) i :
  (i < - Z.of_nat len ∨ Z.of_nat len <= i)%Z → norm_index len i = None.
Proof.
  intros Hi. unfold norm_index.
  destruct (0 <=? i)%Z eqn:H0, (i <? Z.of_nat len)%Z eqn:H1,
    (- Z.of_nat len <=? i)%Z eqn:H2, (i <? 0)%Z eqn:H3; simpl; try done; lia.
Qed.

Lemma getitem_lookup l i a :
  (0 <= i)%Z → l !! Z.to_nat i = Some a → getitem l i = Ok a.
Proof.
  intros H0 Hl. unfold getitem. apply lookup_lt_Some in Hl as Hlt.
  rewrite norm_index_nonneg by lia. by rewrite Hl.
Qed.

Lemma setitem_insert l i a :
  (0 <= i)%Z → Z.to_nat i < length l → setitem l i a = Ok (<[Z.to_nat i := a]> l).
Proof.
  intros H0 Hlt. unfold setitem. by rewrite norm_index_nonneg by lia.
Qed.

Lemma getitem_beyond l i :
  (i < - Z.of_nat (length l) ∨ Z.of_nat (length l) <= i)%Z → getitem l i = Raise IndexError.
Proof. intros Hi. unfold getitem. by rewrite norm_index_beyond. Qed.
End SubscriptFacts.

(** ** Union-find *)
Section UnionFindFacts.
Import UnionFind.
Local Open Scope Z_scope.
#[local] Arguments getitem : simpl never.
#[local] Arguments setitem : simpl never.
Implicit Types (p : list Z) (x y z r : Z) (d k : nat).

Lemma par_lt p x y : par p x y → (Z.to_nat x < length p)%nat.
Proof. intros [_ Hx]. by apply lookup_lt_Some in Hx. Qed.

Lemma par_fun p x y y' : par p x y → par p x y' → y = y'.
Proof. intros [_ H1] [_ H2]. congruence. Qed.

Lemma par_insert_eq p x y r : par p x y → par (<[Z.to_nat x := r]> p) x r.
Proof.
  intros Hx. split; [apply Hx|].
  apply list_lookup_insert_eq. by eapply par_lt.
Qed.

Lemma par_insert_ne p x r y z :
  0 <= x → y ≠ x → par p y z → par (<[Z.to_nat x := r]> p) y z.
Proof.
  intros H0 Hne [Hy Hl]. split; [done|].
  rewrite list_lookup_insert_ne; [done|]. intros Heq. apply Hne.
  apply Z2Nat.inj in Heq; lia.
Qed.

Lemma root_in_is_root p x r d : root_in p x r d → par p r r.
Proof. induction 1; auto. Qed.

Lemma root_in_par p x r d : root_in p x r d → ∃ y, par p x y.
Proof. destruct 1; eauto. Qed.

Lemma root_in_fun p x r d :
  root_in p x r d → ∀ r' d', root_in p x r' d' → r = r' ∧ d = d'.
Proof.
  induction 1 as [x Hx|x y r d Hxy Hne Hy IH]; intros r' d' H'.
  - inversion H' as [? Hx'|? y' ? ? Hxy' Hne' _]; subst; [done|].
    destruct Hne'. by eapply par_fun.
  - inversion H' as [? Hx'|? y' ? d'' Hxy' Hne' Hy']; subst.
    + destruct Hne. by eapply par_fun.
    + rewrite <- (par_fun _ _ _ _ Hxy Hxy') in Hy'.
      destruct (IH _ _ Hy') as [-> ->]. done.
Qed.

(** [parent[x] = root], with [root] the root of [x]: every element keeps
    its root, and no chain gets longer. *)
Lemma compress_keeps_roots p x r dx :
  root_in p x r dx →
  ∀ y r' d, root_in p y r' d →
    ∃ d', root_in (<[Z.to_nat x := r]> p) y r' d' ∧ (d' ≤ d)%nat.
Proof.
  intros Hx. destruct (root_in_par _ _ _ _ Hx) as [px Hpx].
  assert (0 <= x) as H0 by apply Hpx.
  induction 1 as [y Hy|y z r' d Hyz Hne Hz IH].
  - exists 0%nat. split; [|done]. constructor.
    destruct (decide (y = x)) as [->|Hyx].
    + destruct (root_in_fun _ _ _ _ Hx _ _ (root_here _ _ Hy)) as [-> _].
      by eapply par_insert_eq.
    + by apply par_insert_ne.
  - destruct IH as (d' & Hz' & Hd').
    destruct (decide (y = x)) as [->|Hyx].
    + destruct (root_in_fun _ _ _ _ Hx _ _ (root_up _ _ _ _ _ Hyz Hne Hz)) as [-> ->].
      assert (par p r' r') as Hr by (by eapply root_in_is_root).
      assert (r' ≠ x) as Hrx.
      { intros ->. apply Hne. by eapply par_fun. }
      exists 1%nat. split; [|lia].
      eapply root_up; [by eapply par_insert_eq|done|].
      constructor. by apply par_insert_ne.
    + exists (S d'). split; [|lia].
      eapply root_up; [|done|done]. by apply par_insert_ne.
Qed.

(** [find] returns the root, and leaves a list of the same length in
    which every element has the root it had, no farther away. *)
Lemma find_spec p x r d :
  root_in p x r d → ∀ depth, (d < depth)%nat →
  ∃ p', find depth p x = Ok (p', r) ∧ length p' = length p
    ∧ ∀ y r' d', root_in p y r' d' → ∃ d'', root_in p' y r' d'' ∧ (d'' ≤ d')%nat.
Proof.
  induction 1 as [x Hx|x y r d Hxy Hne Hy IH]; intros [|depth] Hd; try lia.
  - exists p. simpl. destruct Hx as [H0 Hl].
    rewrite (getitem_lookup _ _ _ H0 Hl). simpl. rewrite Z.eqb_refl. simpl. eauto.
  - destruct (IH depth ltac:(lia)) as (p1 & Hfind & Hlen & Hkeep).
    assert (root_in p x r (S d)) as Hx by (by eapply root_up).
    destruct (Hkeep _ _ _ Hx) as (d1 & Hx1 & _).
    destruct (root_in_par _ _ _ _ Hx1) as [px1 Hpx1].
    exists (<[Z.to_nat x := r]> p1). simpl. destruct Hxy as [H0 Hl].
    rewrite (getitem_lookup _ _ _ H0 Hl). simpl.
    apply Z.eqb_neq in Hne as ->. simpl. rewrite Hfind. simpl.
    rewrite setitem_insert by (done || by eapply par_lt). simpl.
    rewrite (getitem_lookup _ _ r H0)
      by (apply list_lookup_insert_eq; by eapply par_lt).
    simpl. split; [done|]. split; [by rewrite length_insert|].
    intros z r' d' Hz. destruct (Hkeep _ _ _ Hz) as (d2 & Hz1 & Hd2).
    destruct (compress_keeps_roots _ _ _ _ Hx1 _ _ _ Hz1) as (d3 & Hz2 & Hd3).
    exists d3. split; [done|lia].
Qed.

(** [parent[root_x] = root_y] for two different roots: the elements below
    [root_x] move under [root_y], one link farther; the others stay. *)
Lemma link_moves_roots p rx ry :
  par p rx rx → par p ry ry → rx ≠ ry →
  ∀ z r d, root_in p z r d →
    root_in (<[Z.to_nat rx := ry]> p) z
      (if decide (r = rx) then ry else r) (if decide (r = rx) then S d else d).
Proof.
  intros Hrx Hry Hne. assert (0 <= rx) as H0 by apply Hrx.
  induction 1 as [z Hz|z w r d Hzw Hwz Hw IH].
  - destruct (decide (z = rx)) as [->|Hzrx].
    + eapply root_up; [by eapply par_insert_eq|done|].
      constructor. by apply par_insert_ne.
    + constructor. by apply par_insert_ne.
  - assert (z ≠ rx) as Hzrx.
    { intros ->. apply Hwz. by eapply par_fun. }
    destruct (decide (r = rx)); (eapply root_up; [by apply par_insert_ne|done|done]).
Qed.

Lemma root_in_universe n p x r d :
  length p = n → root_in p x r d → in_universe n r.
Proof.
  intros Hlen Hx. apply root_in_is_root in Hx.
  pose proof (par_lt _ _ _ Hx). destruct Hx as [H0 _].
  unfold in_universe. lia.
Qed.

(** *** Connectivity *)

#[local] Instance connected_equiv calls : Equivalence (connected calls).
Proof. unfold connected. apply _. Qed.

Lemma connected_nil x y : connected [] x y → x = y.
Proof.
  unfold connected, rtsc. induction 1 as [|a b c Hab _ IH]; [done|].
  destruct Hab as [Hab|Hab]; by apply elem_of_nil in Hab.
Qed.

Lemma connected_mono calls c x y : connected calls x y → connected (calls ++ [c]) x y.
Proof.
  unfold connected. apply rtc_subrel. intros a b [Hab|Hab]; [left|right];
    apply elem_of_app; by left.
Qed.

Lemma connected_snoc calls a b x y :
  connected (calls ++ [(a, b)]) x y ↔
  connected calls x y
  ∨ (connected calls x a ∧ connected calls b y)
  ∨ (connected calls x b ∧ connected calls a y).
Proof.
  split.
  - unfold connected at 1, rtsc. induction 1 as [x|x z y Hxz _ IH]; [by left|].
    assert (connected calls x z ∨ (x = a ∧ z = b) ∨ (x = b ∧ z = a)) as Hstep.
    { destruct Hxz as [Hxz|Hxz]; apply elem_of_app in Hxz as [Hin|Hin].
      - left. apply rtc_once. by left.
      - apply list_elem_of_singleton in Hin as [= -> ->]. auto.
      - left. apply rtc_once. by right.
      - apply list_elem_of_singleton in Hin as [= -> ->]. auto. }
    destruct Hstep as [Hc|[[-> ->]|[-> ->]]].
    + destruct IH as [IH|[[IH1 IH2]|[IH1 IH2]]].
      * left. by etrans.
      * right; left. split; [by etrans|done].
      * right; right. split; [by etrans|done].
    + destruct IH as [IH|[[IH1 IH2]|[IH1 IH2]]].
      * right; left. done.
      * right; left. done.
      * left. done.
    + destruct IH as [IH|[[IH1 IH2]|[IH1 IH2]]].
      * right; right. done.
      * left. done.
      * right; right. done.
  - assert (connected (calls ++ [(a, b)]) a b) as Hab.
    { apply rtc_once. left. apply elem_of_app. right. left. }
    intros [H|[[H1 H2]|[H1 H2]]].
    + by apply connected_mono.
    + etrans; [by apply connected_mono|]. etrans; [done|]. by apply connected_mono.
    + etrans; [by apply connected_mono|]. etrans; [by symmetry|].
      by apply connected_mono.
Qed.

Lemma init_par n x : in_universe n x → par (init n) x x.
Proof.
  intros [H0 Hn]. split; [done|]. unfold init.
  rewrite list_lookup_fmap, lookup_seq_lt by lia. simpl. f_equal. lia.
Qed.

Lemma init_forest n : forest n (init n) 0.
Proof.
  split.
  - unfold init. by rewrite length_map, length_seq.
  - intros x Hx. exists x, 0%nat. split; [|done]. constructor. by apply init_par.
Qed.

Lemma init_tracks n : tracks n [] (init n).
Proof.
  intros x y rx ry dx dy Hx Hy Hrx Hry.
  destruct (root_in_fun _ _ _ _ Hrx _ _ (root_here _ _ (init_par _ _ Hx))) as [-> _].
  destruct (root_in_fun _ _ _ _ Hry _ _ (root_here _ _ (init_par _ _ Hy))) as [-> _].
  split; [by intros ->|apply connected_nil].
Qed.

(** A list in which every element has kept its root is as good as the
    first one for both parts of the invariant. *)
Lemma forest_keep n p p' k :
  forest n p k → length p' = length p →
  (∀ y r d, root_in p y r d → ∃ d', root_in p' y r d' ∧ (d' ≤ d)%nat) →
  forest n p' k.
Proof.
  intros [Hlen Hroots] Hlen' Hkeep. split; [congruence|].
  intros x Hx. destruct (Hroots x Hx) as (r & d & Hr & Hd).
  destruct (Hkeep _ _ _ Hr) as (d' & Hr' & Hd'). exists r, d'. split; [done|lia].
Qed.

Lemma tracks_keep n calls p p' k :
  forest n p k → tracks n calls p →
  (∀ y r d, root_in p y r d → ∃ d', root_in p' y r d' ∧ (d' ≤ d)%nat) →
  tracks n calls p'.
Proof.
  intros [Hlen Hroots] Htr Hkeep x y rx ry dx dy Hx Hy Hrx Hry.
  destruct (Hroots x Hx) as (rx0 & dx0 & Hrx0 & _).
  destruct (Hroots y Hy) as (ry0 & dy0 & Hry0 & _).
  destruct (Hkeep _ _ _ Hrx0) as (dx1 & Hrx1 & _).
  destruct (Hkeep _ _ _ Hry0) as (dy1 & Hry1 & _).
  destruct (root_in_fun _ _ _ _ Hrx _ _ Hrx1) as [-> _].
  destruct (root_in_fun _ _ _ _ Hry _ _ Hry1) as [-> _].
  by eapply Htr.
Qed.

(** Two [find]s in a row, as [union] and [find(x) == find(y)] make them. *)
Lemma find_twice n p k x y depth :
  forest n p k → in_universe n x → in_universe n y → (k < depth)%nat →
  ∃ p1 p2 rx ry dx dy,
    find depth p x = Ok (p1, rx) ∧ find depth p1 y = Ok (p2, ry)
    ∧ root_in p x rx dx ∧ root_in p y ry dy
    ∧ length p2 = length p
    ∧ ∀ z r d, root_in p z r d → ∃ d', root_in p2 z r d' ∧ (d' ≤ d)%nat.
Proof.
  intros [Hlen Hroots] Hx Hy Hk.
  destruct (Hroots x Hx) as (rx & dx & Hrx & Hdx).
  destruct (Hroots y Hy) as (ry & dy & Hry & Hdy).
  destruct (find_spec _ _ _ _ Hrx depth ltac:(lia)) as (p1 & Hf1 & Hlen1 & Hkeep1).
  destruct (Hkeep1 _ _ _ Hry) as (dy1 & Hry1 & Hdy1).
  destruct (find_spec _ _ _ _ Hry1 depth ltac:(lia)) as (p2 & Hf2 & Hlen2 & Hkeep2).
  exists p1, p2, rx, ry, dx, dy. repeat split; try done; [congruence|].
  intros z r d Hz. destruct (Hkeep1 _ _ _ Hz) as (d1 & Hz1 & Hd1).
  destruct (Hkeep2 _ _ _ Hz1) as (d2 & Hz2 & Hd2). exists d2. split; [done|lia].
Qed.

Lemma union_spec n calls p x y depth :
  forest n p (length calls) → tracks n calls p →
  in_universe n x → in_universe n y → (length calls < depth)%nat →
  ∃ p', union depth p x y = Ok p'
    ∧ forest n p' (length (calls ++ [(x, y)]))
    ∧ tracks n (calls ++ [(x, y)]) p'.
Proof.
  intros Hfor Htr Hx Hy Hk.
  destruct (find_twice _ _ _ _ _ _ Hfor Hx Hy Hk)
    as (p1 & p2 & rx & ry & dx & dy & Hf1 & Hf2 & Hrx & Hry & Hlen2 & Hkeep).
  pose proof (forest_keep _ _ _ _ Hfor Hlen2 Hkeep) as Hfor2.
  pose proof (tracks_keep _ _ _ _ _ Hfor Htr Hkeep) as Htr2.
  destruct (Hkeep _ _ _ Hrx) as (dx2 & Hrx2 & _).
  destruct (Hkeep _ _ _ Hry) as (dy2 & Hry2 & _).
  unfold union. rewrite Hf1. simpl. rewrite Hf2. simpl.
  rewrite length_app. simpl.
  destruct (rx =? ry) eqn:Heq; simpl.
  - apply Z.eqb_eq in Heq as ->. exists p2. split; [done|]. split.
    + destruct Hfor2 as [Hl Hr]. split; [done|]. intros z Hz.
      destruct (Hr z Hz) as (r & d & Hzr & Hd). exists r, d. split; [done|lia].
    + assert (connected calls x y) as Hxy
        by (by apply (Htr2 x y ry ry dx2 dy2 Hx Hy Hrx2 Hry2)).
      intros a b ra rb da db Ha Hb Hra Hrb.
      rewrite connected_snoc, (Htr2 a b ra rb da db Ha Hb Hra Hrb).
      split; [by left|]. intros [H|[[H1 H2]|[H1 H2]]]; [done| |].
      * etrans; [exact H1|]. etrans; [exact Hxy|exact H2].
      * etrans; [exact H1|]. etrans; [symmetry; exact Hxy|exact H2].
  - apply Z.eqb_neq in Heq.
    pose proof (root_in_is_root _ _ _ _ Hrx2) as Hprx.
    pose proof (root_in_is_root _ _ _ _ Hry2) as Hpry.
    rewrite setitem_insert by (apply Hprx || by eapply par_lt).
    simpl. eexists. split; [done|].
    pose proof (link_moves_roots _ _ _ Hprx Hpry Heq) as Hlink.
    destruct Hfor2 as [Hl Hr]. split.
    + split; [by rewrite length_insert|]. intros z Hz.
      destruct (Hr z Hz) as (r & d & Hzr & Hd).
      eexists _, _. split; [by apply Hlink|]. destruct (decide (r = rx)); lia.
    + intros a b ra rb da db Ha Hb Hra Hrb.
      destruct (Hr a Ha) as (ra0 & da0 & Hra0 & _).
      destruct (Hr b Hb) as (rb0 & db0 & Hrb0 & _).
      destruct (root_in_fun _ _ _ _ Hra _ _ (Hlink _ _ _ Hra0)) as [-> _].
      destruct (root_in_fun _ _ _ _ Hrb _ _ (Hlink _ _ _ Hrb0)) as [-> _].
      rewrite connected_snoc.
      pose proof (Htr2 a b _ _ _ _ Ha Hb Hra0 Hrb0) as Hab.
      pose proof (Htr2 a x _ _ _ _ Ha Hx Hra0 Hrx2) as Hax.
      pose proof (Htr2 a y _ _ _ _ Ha Hy Hra0 Hry2) as Hay.
      pose proof (Htr2 y b _ _ _ _ Hy Hb Hry2 Hrb0) as Hyb.
      pose proof (Htr2 x b _ _ _ _ Hx Hb Hrx2 Hrb0) as Hxb.
      rewrite <- Hab, <- Hax, <- Hay, <- Hyb, <- Hxb.
      clear -Heq. destruct (decide (ra0 = rx)), (decide (rb0 = rx)); intuition congruence.
Qed.

Lemma unions_spec n depth (rest : list (Z * Z)) :
  ∀ calls p,
    forest n p (length calls) → tracks n calls p → valid_calls n rest →
    (length calls + length rest < depth)%nat →
    ∃ p', unions depth p rest = Ok p'
      ∧ forest n p' (length (calls ++ rest)) ∧ tracks n (calls ++ rest) p'.
Proof.
  induction rest as [|[x y] rest IH]; intros calls p Hfor Htr Hvalid Hdepth.
  - exists p. rewrite app_nil_r. done.
  - apply Forall_cons in Hvalid as [[Hx Hy] Hvalid]. simpl in Hx, Hy, Hdepth.
    destruct (union_spec _ _ _ _ _ depth Hfor Htr Hx Hy ltac:(lia))
      as (p1 & Hunion & Hfor1 & Htr1).
    destruct (IH (calls ++ [(x, y)]) p1 Hfor1 Htr1 Hvalid) as (p' & Hrest & Hfor' & Htr').
    { rewrite length_app. simpl. lia. }
    exists p'. simpl. rewrite Hunion. simpl.
    by rewrite <- app_assoc in Hfor', Htr'.
Qed.

(** C7: after any sequence of [union] calls on ids of the universe,
    [find(x) == find(y)] is true exactly when the unioned pairs connect
    [x] and [y] (directly, through other elements, or because [x] is
    [y]); both the unions and the two finds run to their end as soon as
    the interpreter allows one nested call more than there were unions. *)
Theorem find_equal_iff_connected (n : nat) (calls : list (Z * Z)) (depth : nat) (x y : Z) :
  valid_calls n calls → in_universe n x → in_universe n y →
  (length calls < depth)%nat →
  ∃ parent b,
    unions depth (init n) calls = Ok parent
    ∧ same_set depth parent x y = Ok b
    ∧ (b = true ↔ connected calls x y).
Proof.
  intros Hvalid Hx Hy Hdepth.
  destruct (unions_spec n depth calls [] (init n) (init_forest n) (init_tracks n) Hvalid)
    as (parent & Hrun & Hfor & Htr); [simpl; lia|].
  simpl in Hfor, Htr.
  destruct (find_twice _ _ _ _ _ _ Hfor Hx Hy Hdepth)
    as (p1 & p2 & rx & ry & dx & dy & Hf1 & Hf2 & Hrx & Hry & _).
  exists parent, (rx =? ry). split; [done|]. split.
  - unfold same_set. rewrite Hf1. simpl. by rewrite Hf2.
  - rewrite Z.eqb_eq. by eapply Htr.
Qed.

Lemma find_equal_iff_connected_witness :
  ∃ parent b,
    unions 4 (init 6) [(1, 2); (3, 4); (2, 3)] = Ok parent
    ∧ same_set 4 parent 1 4 = Ok b
    ∧ (b = true ↔ connected [(1, 2); (3, 4); (2, 3)] 1 4).
Proof.
  apply (find_equal_iff_connected 6 [(1, 2); (3, 4); (2, 3)] 4 1 4).
  - repeat constructor; simpl; lia.
  - unfold in_universe. lia.
  - unfold in_universe. lia.
  - simpl. lia.
Defined.

(** The run of the witness, evaluated. *)
Example unions_demo :
  unions 4 (init 6) [(1, 2); (3, 4); (2, 3)] = Ok [0; 2; 4; 4; 4; 5]
  ∧ same_set 4 [0; 2; 4; 4; 4; 5] 1 4 = Ok true
  ∧ same_set 4 [0; 2; 4; 4; 4; 5] 1 5 = Ok false.
Proof. repeat split; reflexivity. Qed.

(** C8, as amended: on an object that valid unions have brought to any
    state, [find] and [union] called with an id [x >= n] or [x < -n]
    raise the [IndexError] of the list subscript. *)
Theorem beyond_range_id_raises_IndexError
    (n : nat) (calls : list (Z * Z)) (depth : nat) (x y : Z) :
  valid_calls n calls → (length calls < depth)%nat →
  x < - Z.of_nat n ∨ Z.of_nat n <= x → in_universe n y →
  ∃ parent,
    unions depth (init n) calls = Ok parent
    ∧ find depth parent x = Raise IndexError
    ∧ union depth parent x y = Raise IndexError
    ∧ union depth parent y x = Raise IndexError.
Proof.
  intros Hvalid Hdepth Hx Hy.
  destruct (unions_spec n depth calls [] (init n) (init_forest n) (init_tracks n) Hvalid)
    as (parent & Hrun & Hfor & _); [simpl; lia|].
  simpl in Hfor. exists parent. split; [done|].
  assert (∀ p, length p = n → find depth p x = Raise IndexError) as Hfail.
  { intros p Hlen. destruct depth as [|depth]; [lia|]. simpl.
    rewrite getitem_beyond; [done|]. by rewrite Hlen. }
  destruct Hfor as [Hlen Hroots]. split; [by apply Hfail|]. split.
  - unfold union. by rewrite Hfail.
  - destruct (Hroots y Hy) as (ry & dy & Hry & Hdy).
    destruct (find_spec _ _ _ _ Hry depth ltac:(lia)) as (p1 & Hf1 & Hlen1 & _).
    unfold union. rewrite Hf1. simpl. rewrite Hfail; [done|congruence].
Qed.

Lemma beyond_range_id_raises_IndexError_witness :
  ∃ parent,
    unions 2 (init 6) [(1, 2)] = Ok parent
    ∧ find 2 parent 6 = Raise IndexError
    ∧ union 2 parent 6 0 = Raise IndexError
    ∧ union 2 parent 0 6 = Raise IndexError.
Proof.
  apply (beyond_range_id_raises_IndexError 6 [(1, 2)] 2 6 0).
  - repeat constructor; simpl; lia.
  - simpl. lia.
  - right. simpl. lia.
  - unfold in_universe. lia.
Defined.

(** C8 as stated fails: on [UnionFind(3)] the id 3 is refused with
    [IndexError], not with an error of the [EmptyStructureError] class,
    and the id -1, outside the universe as well, is not refused at all:
    the subscript takes it for the last cell and [find] returns 2. *)
Lemma out_of_universe_id_counterexample :
  ¬ in_universe 3 3 ∧ ¬ in_universe 3 (-1)
  ∧ find 10 (init 3) 3 = Raise IndexError
  ∧ find 10 (init 3) 3 ≠ Raise EmptyStructureError
  ∧ find 10 (init 3) (-1) = Ok ([0; 1; 2], 2)
  ∧ union 10 (init 3) (-1) 0 = Ok [0; 1; 0].
Proof.
  unfold in_universe. split; [lia|]. split; [lia|].
  split; [reflexivity|]. split; [discriminate|]. split; reflexivity.
Qed.
End UnionFindFacts.

(** ** Breadth-first traversal *)
Lemma StronglySorted_lookup {A} (R : relation A) (l : list A) (i j : nat) (a b : A) :
  StronglySorted R l → i < j → l !! i = Some a → l !! j = Some b → R a b.
Proof.
  intros Hs Hij Hi Hj. rewrite <- (take_drop_middle l i a Hi) in Hs.
  apply StronglySorted_app_1_r, StronglySorted_inv in Hs as [_ Hall].
  rewrite Forall_forall in Hall. apply Hall.
  apply list_elem_of_lookup. exists (j - S i).
  rewrite lookup_drop. rewrite <- Hj. f_equal. lia.
Qed.

Section BFSFacts.
Import BFS.
Context {G : Type} `{Graph G} (g : G) (s : Z).
Implicit Types (printed queue : list Z) (visited : gset Z) (u v w x : Z).

Lemma hops_fun x d d' : hops g s x d → hops g s x d' → d = d'.
Proof. intros [H1 M1] [H2 M2]. apply Nat.le_antisymm; auto. Qed.

Lemma hops_start : hops g s s 0.
Proof. split; [constructor|lia]. Qed.

(** A node not yet discovered lies behind the queue: every path to it
    passes through a queued node first. *)
Lemma frontier printed queue visited :
  bfs_inv g s printed queue visited →
  ∀ k w, nsteps (edge g) k s w → w ∉ visited →
  ∃ x i, x ∈ queue ∧ i < k ∧ nsteps (edge g) i s x.
Proof.
  intros Hinv. induction k as [|k IH]; intros w Hw Hnew.
  - inversion Hw; subst. destruct Hnew. apply (inv_start _ _ _ _ _ Hinv).
  - apply nsteps_inv_r in Hw as (p & Hp & Hpw).
    destruct (decide (p ∈ visited)) as [Hin|Hout].
    + apply (inv_visited _ _ _ _ _ Hinv), elem_of_app in Hin as [Hin|Hin].
      * destruct Hnew. by eapply (inv_done _ _ _ _ _ Hinv).
      * exists p, k. auto.
    + destruct (IH p Hp Hout) as (x & i & Hx & Hi & Hxi).
      exists x, i. split; [done|]. split; [lia|done].
Qed.

(** Two queued nodes, the first at the head. *)
Lemma head_first printed u queue visited x du dx :
  bfs_inv g s printed (u :: queue) visited → x ∈ u :: queue →
  hops g s u du → hops g s x dx → du ≤ dx.
Proof.
  intros Hinv Hx Hu Hdx. apply elem_of_cons in Hx as [->|Hx].
  - by rewrite (hops_fun _ _ _ Hu Hdx).
  - pose proof (inv_sorted _ _ _ _ _ Hinv) as Hs.
    apply StronglySorted_app_1_r, StronglySorted_inv in Hs as [_ Hall].
    rewrite Forall_forall in Hall. by apply (Hall x Hx).
Qed.

(** What the head of the queue discovers is one level beyond it. *)
Lemma discovered_hops printed u queue visited w du :
  bfs_inv g s printed (u :: queue) visited → edge g u w → w ∉ visited →
  hops g s u du → hops g s w (S du).
Proof.
  intros Hinv Huw Hnew Hu. split.
  - eapply nsteps_r; [apply Hu|done].
  - intros k Hk.
    destruct (frontier _ _ _ Hinv k w Hk Hnew) as (x & i & Hx & Hi & Hxi).
    destruct (inv_hops _ _ _ _ _ Hinv x) as [dx Hdx].
    { apply elem_of_app. by right. }
    pose proof (proj2 Hdx _ Hxi).
    pose proof (head_first _ _ _ _ _ _ _ Hinv Hx Hu Hdx). lia.
Qed.

Section Closed.
Hypothesis Hclosed : closed g.

(** [queue.append(neighbor); visited.add(neighbor)] keeps the invariant. *)
Lemma discover printed u queue visited w :
  bfs_inv g s printed (u :: queue) visited → edge g u w → w ∉ visited →
  bfs_inv g s printed (u :: queue ++ [w]) ({[w]} ∪ visited).
Proof.
  intros Hinv Huw Hnew.
  destruct (inv_hops _ _ _ _ _ Hinv u) as [du Hu].
  { apply elem_of_app. right. left. }
  pose proof (discovered_hops _ _ _ _ _ _ Hinv Huw Hnew Hu) as Hw.
  assert (w ∉ printed ++ u :: queue) as Hfresh.
  { intros Hin. by apply Hnew, (inv_visited _ _ _ _ _ Hinv). }
  change (u :: queue ++ [w]) with ((u :: queue) ++ [w]).
  split; rewrite ?app_assoc.
  - apply NoDup_app. split; [apply (inv_nodup _ _ _ _ _ Hinv)|].
    split; [|apply NoDup_singleton].
    intros x Hx ->%list_elem_of_singleton. done.
  - intros x. rewrite elem_of_union, elem_of_singleton, elem_of_app,
      list_elem_of_singleton, (inv_visited _ _ _ _ _ Hinv). tauto.
  - apply elem_of_union. right. apply (inv_start _ _ _ _ _ Hinv).
  - intros x [Hx| ->%list_elem_of_singleton]%elem_of_app.
    + by apply (inv_nodes _ _ _ _ _ Hinv).
    + by eapply Hclosed.
  - intros x [Hx| ->%list_elem_of_singleton]%elem_of_app.
    + by apply (inv_hops _ _ _ _ _ Hinv).
    + eauto.
  - apply StronglySorted_app_2;
      [|apply (inv_sorted _ _ _ _ _ Hinv)|repeat constructor].
    intros x ? Hx ->%list_elem_of_singleton dx dw Hdx Hdw.
    rewrite (hops_fun _ _ _ Hdw Hw).
    apply elem_of_app in Hx as [Hx|Hx].
    + assert (le_hops g s x u) as Hxu.
      { eapply StronglySorted_app_1_elem_of;
          [apply (inv_sorted _ _ _ _ _ Hinv)|done|left]. }
      pose proof (Hxu _ _ Hdx Hu). lia.
    + by apply (inv_span _ _ _ _ _ Hinv u x du dx).
  - intros u' v du' dv [= <-] Hv Hu' Hdv.
    rewrite (hops_fun _ _ _ Hu' Hu).
    apply elem_of_app in Hv as [Hv| ->%list_elem_of_singleton].
    + by apply (inv_span _ _ _ _ _ Hinv u v du dv).
    + by rewrite (hops_fun _ _ _ Hdv Hw).
  - intros x w' Hx Hxw. apply elem_of_union. right.
    by eapply (inv_done _ _ _ _ _ Hinv).
Qed.

(** The [for] loop over the neighbours of the dequeued node [u]. *)
Lemma visit_all printed u (ns : list Z) :
  ∀ queue visited,
    bfs_inv g s printed (u :: queue) visited → (∀ w, w ∈ ns → edge g u w) →
    ∃ queue' visited',
      fold_left visit ns (queue, visited) = (queue', visited')
      ∧ bfs_inv g s printed (u :: queue') visited'
      ∧ visited ⊆ visited' ∧ ∀ w, w ∈ ns → w ∈ visited'.
Proof.
  induction ns as [|w ns IH]; intros queue visited Hinv Hns.
  - exists queue, visited. split; [done|]. split; [done|]. split; [done|].
    intros w Hw. by apply elem_of_nil in Hw.
  - assert (edge g u w) as Huw by (apply Hns; left).
    assert (∀ w', w' ∈ ns → edge g u w') as Hns' by (intros w' Hw'; apply Hns; by right).
    simpl. destruct (decide (w ∈ visited)) as [Hin|Hnew].
    + destruct (IH queue visited Hinv Hns') as (q' & vs' & Hfold & Hinv' & Hsub & Hall).
      exists q', vs'. split; [done|]. split; [done|]. split; [done|].
      intros w' [->|Hw']%elem_of_cons; [by apply Hsub|by apply Hall].
    + destruct (IH _ _ (discover _ _ _ _ _ Hinv Huw Hnew) Hns')
        as (q' & vs' & Hfold & Hinv' & Hsub & Hall).
      exists q', vs'. split; [done|]. split; [done|]. split; [set_solver|].
      intros w' [->|Hw']%elem_of_cons; [set_solver|by apply Hall].
Qed.

(** Once all its neighbours are discovered, [u] counts as printed. *)
Lemma dequeue printed u queue visited :
  bfs_inv g s printed (u :: queue) visited → (∀ w, edge g u w → w ∈ visited) →
  bfs_inv g s (printed ++ [u]) queue visited.
Proof.
  intros Hinv Hu.
  assert ((printed ++ [u]) ++ queue = printed ++ u :: queue) as Heq
    by (by rewrite <- app_assoc).
  split; rewrite ?Heq;
    [apply (inv_nodup _ _ _ _ _ Hinv)|apply (inv_visited _ _ _ _ _ Hinv)
    |apply (inv_start _ _ _ _ _ Hinv)|apply (inv_nodes _ _ _ _ _ Hinv)
    |apply (inv_hops _ _ _ _ _ Hinv)|apply (inv_sorted _ _ _ _ _ Hinv)| |].
  - intros u' v du' dv Hhead Hv Hdu' Hdv.
    destruct (inv_hops _ _ _ _ _ Hinv u) as [du Hdu].
    { apply elem_of_app. right. left. }
    assert (u' ∈ queue) as Hu' by (destruct queue; [done|injection Hhead as ->; left]).
    pose proof (inv_span _ _ _ _ _ Hinv u v du dv eq_refl ltac:(by right) Hdu Hdv).
    pose proof (head_first _ _ _ _ _ _ _ Hinv ltac:(by right) Hdu Hdu'). lia.
  - intros x w [Hx| ->%list_elem_of_singleton]%elem_of_app Hxw.
    + by eapply (inv_done _ _ _ _ _ Hinv).
    + by apply Hu.
Qed.

(** Everything discovered is a subscript of the graph, once each. *)
Lemma discovered_bound printed queue visited :
  bfs_inv g s printed queue visited → length (printed ++ queue) ≤ length (keys g).
Proof.
  intros Hinv.
  apply submseteq_length, NoDup_submseteq; [apply (inv_nodup _ _ _ _ _ Hinv)|].
  intros x Hx. destruct (inv_nodes _ _ _ _ _ Hinv x Hx) as [ns Hns].
  by eapply adj_keys.
Qed.

Lemma bfs_loop_spec (fuel : nat) :
  ∀ printed queue visited,
    bfs_inv g s printed queue visited →
    length (keys g) - length printed < fuel →
    ∃ out visited',
      bfs_loop fuel g queue visited printed = (out, Some (Ok ()))
      ∧ bfs_inv g s out [] visited'.
Proof.
  induction fuel as [|fuel IH]; intros printed queue visited Hinv Hfuel; [lia|].
  destruct queue as [|u queue]; [by exists printed, visited|].
  destruct (inv_nodes _ _ _ _ _ Hinv u) as [ns Hns].
  { apply elem_of_app. right. left. }
  destruct (visit_all printed u ns queue visited Hinv) as (q' & vs' & Hfold & Hinv' & _ & Hall).
  { intros w Hw. by exists ns. }
  simpl. rewrite Hns, Hfold. apply IH.
  - apply dequeue; [done|]. intros w (ns' & Hns' & Hw).
    rewrite Hns in Hns'. injection Hns' as <-. by apply Hall.
  - pose proof (discovered_bound _ _ _ Hinv) as Hb.
    rewrite length_app in *. simpl in *. lia.
Qed.

Lemma bfs_inv_init : is_node g s → bfs_inv g s [] [s] {[s]}.
Proof.
  intros Hs. split; simpl.
  - apply NoDup_singleton.
  - intros x. by rewrite elem_of_singleton, list_elem_of_singleton.
  - by apply elem_of_singleton.
  - by intros x ->%list_elem_of_singleton.
  - intros x ->%list_elem_of_singleton. exists 0. apply hops_start.
  - repeat constructor.
  - intros u v du dv [= <-] ->%list_elem_of_singleton Hu Hv.
    rewrite (hops_fun _ _ _ Hu Hv). lia.
  - intros x w Hx. by apply elem_of_nil in Hx.
Qed.
End Closed.
End BFSFacts.

Section BFSTheorems.
Import BFS.

Lemma norm_index_lt (len : nat) (i : Z) (k : nat) :
  norm_index len i = Some k → k < len.
Proof.
  unfold norm_index.
  destruct (0 <=? i)%Z eqn:H0, (i <? Z.of_nat len)%Z eqn:H1,
    (- Z.of_nat len <=? i)%Z eqn:H2, (i <? 0)%Z eqn:H3;
    simpl; intros [= <-]; lia.
Qed.

Lemma list_closedb_closed (g : list (list Z)) : list_closedb g = true → closed g.
Proof.
  unfold list_closedb. rewrite forallb_forall.
  intros Hall u w (ns & Hu & Hw). simpl in Hu. unfold getitem in Hu.
  destruct (norm_index (length g) u) as [k|]; [|done].
  destruct (g !! k) as [ns'|] eqn:Hk; [|done]. injection Hu as ->.
  apply list_elem_of_lookup_2, list_elem_of_In, Hall in Hk.
  rewrite forallb_forall in Hk.
  apply list_elem_of_In, Hk, bool_decide_eq_true in Hw as [j Hj].
  unfold is_node. simpl. unfold getitem. rewrite Hj.
  destruct (lookup_lt_is_Some_2 g j (norm_index_lt _ _ _ Hj)) as [ns' ->]. eauto.
Qed.

(** C5, as amended: on a graph all of whose listed neighbours are nodes,
    from a start node of the graph, [bfs_traversal] ends normally, prints
    exactly the nodes reachable from the start, each with a hop count,
    and along the printed sequence the hop count never decreases: a node
    is no farther from the start than any node printed after it. *)
Theorem bfs_hop_counts_never_decrease
    {G : Type} `{Graph G} (g : G) (start_node : Z) (fuel : nat) :
  closed g → is_node g start_node → length (keys g) < fuel →
  ∃ out,
    bfs_traversal fuel g start_node = (out, Some (Ok ()))
    ∧ (∀ v, v ∈ out ↔ ∃ k, nsteps (edge g) k start_node v)
    ∧ (∀ v, v ∈ out → ∃ d, hops g start_node v d)
    ∧ ∀ i j u v du dv,
        i < j → out !! i = Some u → out !! j = Some v →
        hops g start_node u du → hops g start_node v dv → du ≤ dv.
Proof.
  intros Hclosed Hstart Hfuel.
  destruct (bfs_loop_spec g start_node Hclosed fuel [] [start_node] {[start_node]})
    as (out & visited & Hrun & Hinv).
  { by apply bfs_inv_init. }
  { simpl. lia. }
  exists out. split; [done|].
  pose proof (inv_visited _ _ _ _ _ Hinv) as Hvis.
  pose proof (inv_hops _ _ _ _ _ Hinv) as Hhops.
  pose proof (inv_sorted _ _ _ _ _ Hinv) as Hsorted.
  rewrite app_nil_r in Hsorted.
  setoid_rewrite app_nil_r in Hvis. setoid_rewrite app_nil_r in Hhops.
  split; [|split; [done|]].
  - intros v. split.
    + intros Hv. destruct (Hhops v Hv) as [d [Hd _]]. eauto.
    + intros [k Hk]. apply Hvis. destruct (decide (v ∈ visited)) as [|Hnew]; [done|].
      destruct (frontier _ _ _ _ _ Hinv k v Hk Hnew) as (x & _ & Hx & _).
      by apply elem_of_nil in Hx.
  - intros i j u v du dv Hij Hi Hj.
    by apply (StronglySorted_lookup _ _ _ _ _ _ Hsorted Hij Hi Hj).
Qed.

Lemma bfs_hop_counts_never_decrease_witness :
  ∃ out,
    bfs_traversal 13 (create_graph 6) 0 = (out, Some (Ok ()))
    ∧ (∀ v, v ∈ out ↔ ∃ k, nsteps (edge (create_graph 6)) k 0%Z v)
    ∧ (∀ v, v ∈ out → ∃ d, hops (create_graph 6) 0 v d)
    ∧ ∀ i j u v du dv,
        i < j → out !! i = Some u → out !! j = Some v →
        hops (create_graph 6) 0 u du → hops (create_graph 6) 0 v dv → du ≤ dv.
Proof.
  apply (bfs_hop_counts_never_decrease (create_graph 6) 0 13).
  - apply list_closedb_closed. reflexivity.
  - eexists. reflexivity.
  - vm_compute. lia.
Defined.

(** The traversal of the script. *)
Example bfs_demo :
  bfs_traversal 13 (create_graph 6) 0 = ([0; 1; 2; 3; 4; 5]%Z, Some (Ok ())).
Proof. vm_compute. reflexivity. Qed.

Lemma fork_hops_1 (v : Z) : v ∈ [1; 2]%Z → hops fork 0 v 1.
Proof.
  intros Hv. split.
  - apply nsteps_once. exists [1; 2]%Z. split; [reflexivity|done].
  - intros [|k] Hk; [|lia]. inversion Hk; subst.
    apply elem_of_cons in Hv as [Hv|Hv]; [done|].
    apply list_elem_of_singleton in Hv. done.
Qed.

(** C5 as stated fails: the graph 0 - 1, 0 - 2 is connected, the
    traversal from 0 prints 0, 1, 2, and 1 is not closer to 0 than 2,
    printed after it: both are one hop away. *)
Lemma bfs_same_level_counterexample :
  closed fork ∧ is_node fork 0
  ∧ (∀ v, v ∈ [0; 1; 2]%Z → ∃ k, nsteps (edge fork) k 0%Z v)
  ∧ bfs_traversal 7 fork 0 = ([0; 1; 2]%Z, Some (Ok ()))
  ∧ ¬ (∀ i j u v du dv,
         i < j → [0; 1; 2]%Z !! i = Some u → [0; 1; 2]%Z !! j = Some v →
         hops fork 0 u du → hops fork 0 v dv → du < dv).
Proof.
  split; [by apply list_closedb_closed|]. split; [by eexists|].
  split; [|split; [by vm_compute|]].
  - intros v [->|Hv]%elem_of_cons; [exists 0; constructor|].
    exists 1. by apply fork_hops_1.
  - intros Hstrict.
    assert (1 < 1) as Habs; [|lia].
    apply (Hstrict 1 2 1%Z 2%Z 1 1); try done; [lia| |]; apply fork_hops_1.
    + left.
    + right. left.
Qed.

(** C4, as amended: when the start node is not a subscript the graph
    accepts, [bfs_traversal] prints the start node and then fails with the
    error of the subscript [graph[node]]: [IndexError] for a list of
    adjacency lists, [KeyError] for a dictionary. *)
Theorem bfs_absent_start_raises_lookup_error :
  (∀ (g : list (list Z)) (start_node : Z) (fuel : nat),
     norm_index (length g) start_node = None →
     bfs_traversal (S fuel) g start_node = ([start_node], Some (Raise IndexError)))
  ∧ (∀ (g : list (Z * list Z)) (start_node : Z) (fuel : nat),
       start_node ∉ g.*1 →
       bfs_traversal (S fuel) g start_node = ([start_node], Some (Raise KeyError))).
Proof.
  split.
  - intros g start_node fuel Habsent. unfold bfs_traversal. simpl.
    unfold getitem. by rewrite Habsent.
  - intros g start_node fuel Habsent. unfold bfs_traversal. simpl.
    assert (dict_get g start_node = Raise KeyError) as ->; [|done].
    induction g as [|[k ns] g IH]; [done|]. simpl.
    apply not_elem_of_cons in Habsent as [Hne Habsent]. simpl in Hne.
    apply Z.eqb_neq in Hne as ->. by apply IH.
Qed.

Lemma bfs_absent_start_raises_lookup_error_witness :
  bfs_traversal 1 (create_graph 6) 6 = ([6]%Z, Some (Raise IndexError))
  ∧ bfs_traversal 1 [(1, [2; 3]); (2, [1]); (3, [1])]%Z 7 = ([7]%Z, Some (Raise KeyError)).
Proof.
  split.
  - apply (proj1 bfs_absent_start_raises_lookup_error (create_graph 6) 6%Z 0).
    reflexivity.
  - apply (proj2 bfs_absent_start_raises_lookup_error
             [(1, [2; 3]); (2, [1]); (3, [1])]%Z 7%Z 0).
    simpl. rewrite !elem_of_cons, elem_of_nil. lia.
Defined.

(** C4 as stated fails: node 6 is absent from the six-node graph of the
    script, and the traversal started there ends with [IndexError], after
    printing 6, not with [InvalidNodeError]. *)
Lemma bfs_absent_start_counterexample :
  norm_index (length (create_graph 6)) 6 = None
  ∧ bfs_traversal 13 (create_graph 6) 6 = ([6]%Z, Some (Raise IndexError))
  ∧ ¬ ∃ printed, bfs_traversal 13 (create_graph 6) 6 = (printed, Some (Raise InvalidNodeError)).
Proof.
  split; [reflexivity|]. split; [by vm_compute|].
  intros [printed Hrun]. vm_compute in Hrun. discriminate.
Qed.
End BFSTheorems.

(** * Further properties *)

(** ** Merge and merge sort: what they return *)
Section MergePermutation.
Context {A : Type} (leb : A → A → bool).

Lemma merge_ref_perm (l : list A) : ∀ r, merge_ref leb l r ≡ₚ l ++ r.
Proof.
  induction l as [|x l IHl]; [done|].
  induction r as [|y r IHr]; [by rewrite app_nil_r|].
  simpl. destruct (leb x y).
  - by rewrite IHl.
  - change ((fix scan (r0 : list A) : list A :=
               match r0 with
               | [] => x :: l
               | y0 :: r' => if leb x y0 then x :: merge_ref leb l r0 else y0 :: scan r'
               end) r) with (merge_ref leb (x :: l) r).
    rewrite IHr. apply (Permutation_middle (x :: l) r y).
Qed.

Lemma merge_sort_246_perm (arr : list A) : MergeSort246.merge_sort leb arr ≡ₚ arr.
Proof.
  remember (length arr) as n eqn:Hn. revert arr Hn.
  induction n as [n IH] using lt_wf_ind. intros arr ->.
  rewrite merge_sort_246_unfold.
  destruct (length arr <=? 1) eqn:Hlen; [done|].
  destruct (halves_shorter arr Hlen) as [Htake Hdrop].
  rewrite merge_246_ref, merge_ref_perm.
  rewrite (IH _ Htake _ eq_refl), (IH _ Hdrop _ eq_refl).
  by rewrite take_drop.
Qed.

Lemma merge_sort_547_perm (arr : list A) : MergeSort547.merge_sort leb arr ≡ₚ arr.
Proof.
  remember (length arr) as n eqn:Hn. revert arr Hn.
  induction n as [n IH] using lt_wf_ind. intros arr ->.
  rewrite merge_sort_547_unfold.
  destruct (length arr <=? 1) eqn:Hlen; [done|].
  destruct (halves_shorter arr Hlen) as [Htake Hdrop].
  rewrite merge_547_ref, merge_ref_perm.
  rewrite (IH _ Htake _ eq_refl), (IH _ Hdrop _ eq_refl).
  by rewrite take_drop.
Qed.
End MergePermutation.

Lemma merge_sort_547_sorted (arr : list Z) : Sorted Z.le (MergeSort547.merge_sort Z.leb arr).
Proof.
  remember (length arr) as n eqn:Hn. revert arr Hn.
  induction n as [n IH] using lt_wf_ind. intros arr ->.
  rewrite merge_sort_547_unfold.
  destruct (length arr <=? 1)%nat eqn:Hlen.
  - apply Nat.leb_le in Hlen. destruct arr as [|a [|b arr]]; simpl in Hlen.
    + constructor.
    + repeat constructor.
    + lia.
  - destruct (halves_shorter arr Hlen) as [Htake Hdrop].
    rewrite merge_547_ref.
    apply merge_ref_sorted; [apply (IH _ Htake _ eq_refl)|apply (IH _ Hdrop _ eq_refl)].
Qed.

(** X1: [merge] of the index-based script returns a rearrangement of the
    elements of its two lists, whatever the comparison does, and on two
    lists of integers in non-decreasing order it returns a list in
    non-decreasing order. *)
Theorem merge_246_permutation_sorted :
  (∀ (A : Type) (leb : A → A → bool) (l r : list A),
     MergeSort246.merge leb l r ≡ₚ l ++ r)
  ∧ (∀ l r : list Z,
       Sorted Z.le l → Sorted Z.le r → Sorted Z.le (MergeSort246.merge Z.leb l r)).
Proof.
  split.
  - intros A leb l r. rewrite merge_246_ref. apply merge_ref_perm.
  - intros l r Hl Hr. rewrite merge_246_ref. by apply merge_ref_sorted.
Qed.

Lemma merge_246_permutation_sorted_witness :
  Sorted Z.le (MergeSort246.merge Z.leb [1; 4; 9]%Z [2; 3; 10]%Z).
Proof.
  apply (proj2 merge_246_permutation_sorted [1; 4; 9]%Z [2; 3; 10]%Z);
    repeat constructor; lia.
Defined.

(** X2: [merge_sort] of the index-based script returns, for every list
    of integers, a list in non-decreasing order holding exactly the
    elements of the input, each as often as the input does. *)
Theorem merge_sort_246_sorts (arr : list Z) :
  Sorted Z.le (MergeSort246.merge_sort Z.leb arr)
  ∧ MergeSort246.merge_sort Z.leb arr ≡ₚ arr.
Proof. split; [apply merge_sort_sorted|apply merge_sort_246_perm]. Qed.

(** X3: [merge_sort] of the pop-based script returns, for every list of
    integers, a list in non-decreasing order holding exactly the elements
    of the input, each as often as the input does. *)
Theorem merge_sort_547_sorts (arr : list Z) :
  Sorted Z.le (MergeSort547.merge_sort Z.leb arr)
  ∧ MergeSort547.merge_sort Z.leb arr ≡ₚ arr.
Proof. split; [apply merge_sort_547_sorted|apply merge_sort_547_perm]. Qed.

Lemma filter_none {A : Type} (P : A → Prop) `{∀ x, Decision (P x)} (l : list A) :
  Forall (fun x => ¬ P x) l → filter P l = [].
Proof.
  induction 1 as [|x l Hx _ IH]; [done|].
  rewrite filter_cons. by destruct (decide (P x)).
Qed.

(** ** Stability *)
Section Stability.
Context {A : Type} (key : A → Z).
Local Abbreviation key_leb := (key_leb key).
Local Abbreviation key_le := (key_le key).

Lemma merge_ref_key_HdRel (a : A) (l r : list A) :
  HdRel key_le a l → HdRel key_le a r → HdRel key_le a (merge_ref key_leb l r).
Proof.
  intros Hl Hr. destruct l as [|x l]; [done|]. destruct r as [|y r]; [done|].
  simpl. destruct (key_leb x y); constructor.
  - by apply HdRel_inv in Hl.
  - by apply HdRel_inv in Hr.
Qed.

Lemma merge_ref_key_sorted (l : list A) :
  ∀ r, Sorted key_le l → Sorted key_le r → Sorted key_le (merge_ref key_leb l r).
Proof.
  induction l as [|x l IHl]; [done|].
  induction r as [|y r IHr]; intros Hl Hr; [done|].
  simpl. destruct (key_leb x y) eqn:Hxy; unfold key_leb in Hxy.
  - apply Sorted_inv in Hl as [Hl Hx]. constructor.
    + by apply IHl.
    + apply merge_ref_key_HdRel; [done|]. constructor. unfold key_le. lia.
  - apply Sorted_inv in Hr as [Hr Hy]. constructor.
    + by apply IHr.
    + apply (merge_ref_key_HdRel y (x :: l) r); [|done]. constructor.
      unfold key_le. lia.
Qed.

(** Taking from the left list on ties keeps, among the elements of one
    key, those of the left list before those of the right one. *)
Lemma merge_ref_filter_key (k : Z) (l : list A) :
  ∀ r, Sorted key_le l →
  filter (fun x => key x = k) (merge_ref key_leb l r)
  = filter (fun x => key x = k) l ++ filter (fun x => key x = k) r.
Proof.
  induction l as [|x l IHl]; [done|].
  induction r as [|y r IHr]; intros Hl; [by rewrite app_nil_r|].
  simpl. destruct (key_leb x y) eqn:Hxy; unfold key_leb in Hxy.
  - rewrite !filter_cons. apply Sorted_inv in Hl as [Hl _].
    rewrite (IHl (y :: r) Hl). rewrite filter_cons.
    by destruct (decide (key x = k)).
  - rewrite (filter_cons _ y (_ r)).
    change ((fix scan (r0 : list A) : list A :=
               match r0 with
               | [] => x :: l
               | y0 :: r' =>
                   if key_leb x y0 then x :: merge_ref key_leb l r0 else y0 :: scan r'
               end) r) with (merge_ref key_leb (x :: l) r).
    rewrite (IHr Hl), (filter_cons _ y r).
    destruct (decide (key y = k)) as [Hy|Hy]; [|done].
    assert (filter (fun x0 => key x0 = k) (x :: l) = []) as ->; [|done].
    apply Sorted_StronglySorted in Hl; [|intros a b c; unfold key_le; lia].
    apply StronglySorted_inv in Hl as [_ Hall].
    apply filter_none. constructor; [lia|].
    eapply Forall_impl; [exact Hall|]. unfold key_le. intros z Hz. simpl. lia.
Qed.

Lemma merge_sort_246_key_sorted (arr : list A) :
  Sorted key_le (MergeSort246.merge_sort key_leb arr).
Proof.
  remember (length arr) as n eqn:Hn. revert arr Hn.
  induction n as [n IH] using lt_wf_ind. intros arr ->.
  rewrite merge_sort_246_unfold.
  destruct (length arr <=? 1)%nat eqn:Hlen.
  - apply Nat.leb_le in Hlen. destruct arr as [|a [|b arr]]; simpl in Hlen.
    + constructor.
    + repeat constructor.
    + lia.
  - destruct (halves_shorter arr Hlen) as [Htake Hdrop].
    rewrite merge_246_ref.
    apply merge_ref_key_sorted;
      [apply (IH _ Htake _ eq_refl)|apply (IH _ Hdrop _ eq_refl)].
Qed.

Lemma merge_sort_547_key_sorted (arr : list A) :
  Sorted key_le (MergeSort547.merge_sort key_leb arr).
Proof.
  remember (length arr) as n eqn:Hn. revert arr Hn.
  induction n as [n IH] using lt_wf_ind. intros arr ->.
  rewrite merge_sort_547_unfold.
  destruct (length arr <=? 1)%nat eqn:Hlen.
  - apply Nat.leb_le in Hlen. destruct arr as [|a [|b arr]]; simpl in Hlen.
    + constructor.
    + repeat constructor.
    + lia.
  - destruct (halves_shorter arr Hlen) as [Htake Hdrop].
    rewrite merge_547_ref.
    apply merge_ref_key_sorted;
      [apply (IH _ Htake _ eq_refl)|apply (IH _ Hdrop _ eq_refl)].
Qed.

Lemma merge_sort_246_filter_key (k : Z) (arr : list A) :
  filter (fun x => key x = k) (MergeSort246.merge_sort key_leb arr)
  = filter (fun x => key x = k) arr.
Proof.
  remember (length arr) as n eqn:Hn. revert arr Hn.
  induction n as [n IH] using lt_wf_ind. intros arr ->.
  rewrite merge_sort_246_unfold.
  destruct (length arr <=? 1)%nat eqn:Hlen; [done|].
  destruct (halves_shorter arr Hlen) as [Htake Hdrop].
  rewrite merge_246_ref, merge_ref_filter_key by apply merge_sort_246_key_sorted.
  rewrite (IH _ Htake _ eq_refl), (IH _ Hdrop _ eq_refl).
  by rewrite <- filter_app, take_drop.
Qed.

Lemma merge_sort_547_filter_key (k : Z) (arr : list A) :
  filter (fun x => key x = k) (MergeSort547.merge_sort key_leb arr)
  = filter (fun x => key x = k) arr.
Proof.
  remember (length arr) as n eqn:Hn. revert arr Hn.
  induction n as [n IH] using lt_wf_ind. intros arr ->.
  rewrite merge_sort_547_unfold.
  destruct (length arr <=? 1)%nat eqn:Hlen; [done|].
  destruct (halves_shorter arr Hlen) as [Htake Hdrop].
  rewrite merge_547_ref, merge_ref_filter_key by apply merge_sort_547_key_sorted.
  rewrite (IH _ Htake _ eq_refl), (IH _ Hdrop _ eq_refl).
  by rewrite <- filter_app, take_drop.
Qed.
End Stability.

(** X4: both merge sorts are stable.  When the elements are compared by
    an integer key ([a <= b] is [key a <= key b]), the elements of any one
    key come out in the order they had in the input. *)
Theorem merge_sorts_stable {A : Type} (key : A → Z) (k : Z) (arr : list A) :
  filter (fun x => key x = k) (MergeSort246.merge_sort (key_leb key) arr)
  = filter (fun x => key x = k) arr
  ∧ filter (fun x => key x = k) (MergeSort547.merge_sort (key_leb key) arr)
    = filter (fun x => key x = k) arr.
Proof. split; [apply merge_sort_246_filter_key|apply merge_sort_547_filter_key]. Qed.

(** Records compared by their first component only. *)
Example merge_sort_stable_demo :
  MergeSort246.merge_sort (key_leb fst)
    [(2, "a"); (1, "b"); (2, "c"); (1, "d")]%Z%string
  = [(1, "b"); (1, "d"); (2, "a"); (2, "c")]%Z%string.
Proof. vm_compute. reflexivity. Qed.

(** ** What the pop-based merge leaves of its arguments *)
Section MergeConsumes.
Context {A : Type} (leb : A → A → bool).

Lemma merge_loop_leftovers (l r merged : list A) :
  ∀ l' r' merged', MergeSort547.merge_loop leb l r merged = (l', r', merged') →
  (l' = [] ∨ r' = []) ∧ l' `suffix_of` l ∧ r' `suffix_of` r
  ∧ length merged' + length l' + length r' = length merged + length l + length r.
Proof.
  funelim (MergeSort547.merge_loop leb l r merged); intros l' r' merged' Hloop.
  - injection Hloop as <- <- <-. auto.
  - injection Hloop as <- <- <-. auto.
  - destruct (H _ _ _ Hloop) as (Hempty & Hl & Hr & Hlen).
    rewrite length_app in Hlen. simpl in *.
    repeat split; [done|by apply suffix_cons_r|done|lia].
  - destruct (H _ _ _ Hloop) as (Hempty & Hl & Hr & Hlen).
    rewrite length_app in Hlen. simpl in *.
    repeat split; [done|done|by apply suffix_cons_r|lia].
Qed.
End MergeConsumes.

(** X5: the [while] loop of the pop-based [merge] consumes its arguments:
    when it ends, what is left of [left] and of [right] are suffixes of the
    lists passed in, at least one of them is empty, and every element
    popped has gone to [merged]. *)
Theorem merge_547_consumes_arguments {A : Type} (leb : A → A → bool) (l r : list A) :
  let '(l', r', merged) := MergeSort547.merge_loop leb l r [] in
  (l' = [] ∨ r' = []) ∧ l' `suffix_of` l ∧ r' `suffix_of` r
  ∧ length merged + length l' + length r' = length l + length r.
Proof.
  destruct (MergeSort547.merge_loop leb l r []) as [[l' r'] merged] eqn:Hloop.
  apply (merge_loop_leftovers _ _ _ _ _ _ _ Hloop).
Qed.

(** ** Monotonic stack: push, pop and the top *)
Section StackMore.
Import MonotonicStack.
Local Open Scope Z_scope.

Lemma pushes_sorted_from (vals : list Z) :
  ∀ stack, Sorted Z.le stack → Sorted Z.le (fold_left (push Z.ltb) vals stack).
Proof.
  induction vals as [|v vals IH]; simpl; intros stack Hs; [done|].
  by apply IH, push_sorted.
Qed.

Lemma sorted_below_top (stack : list Z) (top : Z) :
  Sorted Z.le (stack ++ [top]) → Forall (fun x => x <= top) stack.
Proof.
  intros Hs. apply Sorted_StronglySorted in Hs; [|intros ???; lia].
  apply Forall_forall. intros x Hx.
  apply (StronglySorted_app_1_elem_of _ _ _ x top Hs Hx). left.
Qed.

Lemma filter_all {A : Type} (P : A → Prop) `{∀ x, Decision (P x)} (l : list A) :
  Forall P l → filter P l = l.
Proof.
  induction 1 as [|x l Hx _ IH]; [done|].
  rewrite filter_cons. destruct (decide (P x)); [by rewrite IH|done].
Qed.

Lemma evict_sorted_filter (stack : list Z) (val : Z) :
  Sorted Z.le stack → evict Z.ltb stack val = filter (fun x => x <= val) stack.
Proof.
  induction stack as [|top stack IH] using rev_ind; intros Hs.
  - by rewrite evict_nil.
  - rewrite evict_snoc, filter_app, filter_cons, filter_nil.
    destruct (val <? top) eqn:Hlt.
    + apply Z.ltb_lt in Hlt. destruct (decide (top <= val)); [lia|].
      rewrite app_nil_r. apply IH. by apply Sorted_app_l in Hs.
    + apply Z.ltb_ge in Hlt. destruct (decide (top <= val)); [|lia].
      f_equal. symmetry. apply filter_all.
      eapply Forall_impl; [by apply sorted_below_top|]. simpl. lia.
Qed.

(** X6: what [push] has just put on the stack is what [pop] returns next,
    whatever the stack was; the stack [pop] leaves is a prefix of the
    stack before the push (the evicted tops are gone for good), and a
    stack is never empty right after a push. *)
Theorem pop_after_push {A : Type} (ltb : A → A → bool) (stack : list A) (val : A) :
  ∃ rest,
    pop (push ltb stack val) = Ok (val, rest)
    ∧ rest `prefix_of` stack
    ∧ is_empty (push ltb stack val) = false.
Proof.
  exists (evict ltb stack val). unfold pop, push, is_empty.
  rewrite last_snoc, removelast_last, length_app. simpl.
  split; [done|]. split.
  - destruct (evict_prefix ltb stack val) as [rest Hrest]. by exists rest.
  - apply Nat.eqb_neq. lia.
Qed.

(** X7: [pop] raises [IndexError] exactly on the stacks for which
    [is_empty] answers true; on any other stack it returns the last
    element and leaves the elements before it. *)
Theorem pop_fails_iff_empty {A : Type} (stack : list A) :
  (pop stack = Raise IndexError ↔ is_empty stack = true)
  ∧ (stack = [] ∨ ∃ top rest, stack = rest ++ [top] ∧ pop stack = Ok (top, rest)).
Proof.
  induction stack as [|top stack _] using rev_ind.
  - split; [done|by left].
  - unfold pop, is_empty. rewrite last_snoc, removelast_last, length_app. simpl.
    split.
    + split; [done|]. intros Hlen%Nat.eqb_eq. lia.
    + right. by exists top, stack.
Qed.

(** X8: on a stack in non-decreasing order, as every stack built by
    pushes is, [push] keeps exactly the elements that are not greater than
    the incoming value, in their order, and puts the value on top. *)
Theorem push_keeps_not_greater (stack : list Z) (val : Z) :
  Sorted Z.le stack →
  push Z.ltb stack val = filter (fun x => x <= val) stack ++ [val].
Proof. intros Hs. unfold push. by rewrite evict_sorted_filter. Qed.

Lemma push_keeps_not_greater_witness :
  push Z.ltb [2; 5; 8] 6 = filter (fun x => x <= 6) [2; 5; 8] ++ [6].
Proof.
  apply (push_keeps_not_greater [2; 5; 8] 6). repeat constructor; lia.
Defined.

(** X9: after any pushes onto an empty stack, the top is the value
    pushed last and no element of the stack is greater than it. *)
Theorem top_is_last_pushed_and_greatest (vals : list Z) (v : Z) :
  last (fold_left (push Z.ltb) (vals ++ [v]) init) = Some v
  ∧ Forall (fun x => x <= v) (fold_left (push Z.ltb) (vals ++ [v]) init).
Proof.
  rewrite fold_left_app. simpl.
  assert (Sorted Z.le (fold_left (push Z.ltb) vals init)) as Hs
    by (apply pushes_sorted_from; constructor).
  unfold push at 1 3. rewrite (evict_sorted_filter _ v Hs).
  split; [by rewrite last_snoc|].
  apply Forall_app. split; [|by constructor].
  apply Forall_forall. intros x Hx. by apply list_elem_of_filter in Hx as [Hx _].
Qed.
End StackMore.

(** ** Union-find: compression, idle unions, number of sets *)
Section UnionFindMore.
Import UnionFind.
Local Open Scope Z_scope.
Implicit Types (p : list Z) (x y z r : Z) (d k : nat).
#[local] Arguments getitem : simpl never.
#[local] Arguments setitem : simpl never.

Lemma root_not_below p x y r d : par p x y → y ≠ x → root_in p y r d → r ≠ x.
Proof.
  intros Hxy Hne Hy ->. apply Hne.
  eapply par_fun; [done|]. by eapply root_in_is_root.
Qed.

(** [find], in full: besides what [find_spec] says, the cell of [x] holds
    the root afterwards, and the cells that hold their own index are the
    same before and after. *)
Lemma find_full p x r d :
  root_in p x r d → ∀ depth, (d < depth)%nat →
  ∃ p', find depth p x = Ok (p', r) ∧ length p' = length p
    ∧ par p' x r ∧ (∀ z, par p' z z ↔ par p z z).
Proof.
  induction 1 as [x Hx|x y r d Hxy Hne Hy IH]; intros [|depth] Hd; try lia.
  - exists p. simpl. destruct Hx as [H0 Hl].
    rewrite (getitem_lookup _ _ _ H0 Hl). simpl. rewrite Z.eqb_refl. simpl.
    split; [done|]. split; [done|]. split; [by split|done].
  - destruct (IH depth ltac:(lia)) as (p1 & Hfind & Hlen & _ & Hcells).
    pose proof (root_not_below _ _ _ _ _ Hxy Hne Hy) as Hrx.
    exists (<[Z.to_nat x := r]> p1). simpl. destruct Hxy as [H0 Hl].
    assert (Z.to_nat x < length p1)%nat as Hlt
      by (rewrite Hlen; by apply lookup_lt_Some in Hl).
    rewrite (getitem_lookup _ _ _ H0 Hl). simpl.
    assert ((y =? x) = false) as -> by (by apply Z.eqb_neq). simpl.
    rewrite Hfind. simpl. rewrite setitem_insert by done. simpl.
    rewrite (getitem_lookup _ _ r H0) by (by apply list_lookup_insert_eq).
    simpl. split; [done|]. split; [by rewrite length_insert|]. split.
    + split; [done|]. by apply list_lookup_insert_eq.
    + intros z. destruct (decide (z = x)) as [->|Hzx].
      * split.
        -- intros [_ Hz]. rewrite list_lookup_insert_eq in Hz by done. congruence.
        -- intros Hz. destruct Hne. by apply (par_fun p x).
      * rewrite <- Hcells. split; intros [Hz0 Hz]; (split; [done|]).
        -- rewrite list_lookup_insert_ne in Hz; [done|]. intros Heq.
           apply Hzx. apply Z2Nat.inj in Heq; lia.
        -- rewrite list_lookup_insert_ne; [done|]. intros Heq.
           apply Hzx. apply Z2Nat.inj in Heq; lia.
Qed.

(** On a cell that already holds its root, [find] changes nothing. *)
Lemma find_flat p x r depth :
  par p x r → par p r r → (x = r ∨ 2 <= depth)%nat → (1 <= depth)%nat →
  find depth p x = Ok (p, r).
Proof.
  intros [H0 Hx] [Hr0 Hr] Hdepth H1. destruct depth as [|depth]; [lia|].
  simpl. rewrite (getitem_lookup _ _ _ H0 Hx). simpl.
  destruct (r =? x) eqn:Heq; simpl.
  - apply Z.eqb_eq in Heq as ->. done.
  - apply Z.eqb_neq in Heq. destruct depth as [|depth]; [destruct Hdepth; [done|lia]|].
    simpl. rewrite (getitem_lookup _ _ _ Hr0 Hr). simpl. rewrite Z.eqb_refl. simpl.
    rewrite setitem_insert by (done || by apply lookup_lt_Some in Hx). simpl.
    rewrite list_insert_id by done.
    by rewrite (getitem_lookup _ _ _ H0 Hx).
Qed.

Lemma same_set_roots n p k depth y z ry rz dy dz :
  forest n p k → (k < depth)%nat → in_universe n y → in_universe n z →
  root_in p y ry dy → root_in p z rz dz →
  same_set depth p y z = Ok (ry =? rz).
Proof.
  intros Hfor Hk Hy Hz Hry Hrz.
  destruct (find_twice _ _ _ _ _ _ Hfor Hy Hz Hk)
    as (p1 & p2 & ry' & rz' & dy' & dz' & Hf1 & Hf2 & Hry' & Hrz' & _).
  destruct (root_in_fun _ _ _ _ Hry _ _ Hry') as [<- _].
  destruct (root_in_fun _ _ _ _ Hrz _ _ Hrz') as [<- _].
  unfold same_set. rewrite Hf1. simpl. by rewrite Hf2.
Qed.

Lemma reachable_forest n calls depth :
  valid_calls n calls → (length calls < depth)%nat →
  ∃ parent, unions depth (init n) calls = Ok parent ∧ forest n parent (length calls).
Proof.
  intros Hvalid Hdepth.
  destruct (unions_spec n depth calls [] (init n) (init_forest n) (init_tracks n) Hvalid)
    as (parent & Hrun & Hfor & _); [simpl; lia|].
  by exists parent.
Qed.

Lemma on_path_root p x y : par p x x → on_path p x y → y = x.
Proof.
  intros Hx Hp. induction Hp as [|a b c Hab Hbc IH]; [done|].
  assert (b = a) as -> by (by apply (par_fun p a)). by apply IH.
Qed.

Lemma root_in_on_path p x r d : root_in p x r d → on_path p x r.
Proof.
  induction 1 as [x Hx|x y r d Hxy Hne Hy IH]; [apply rtc_refl|].
  by apply (rtc_l _ _ y).
Qed.

(** What [find] writes: every cell on the path from [x] to its root
    holds the root afterwards, every other cell is as it was. *)
Lemma find_path p x r d :
  root_in p x r d → ∀ depth, (d < depth)%nat →
  ∃ p', find depth p x = Ok (p', r) ∧ length p' = length p
    ∧ (∀ y, on_path p x y → par p' y r)
    ∧ (∀ y, 0 <= y → ¬ on_path p x y → p' !! Z.to_nat y = p !! Z.to_nat y).
Proof.
  induction 1 as [x Hx|x y r d Hxy Hne Hy IH]; intros [|depth] Hd; try lia.
  - exists p. simpl. destruct Hx as [H0 Hl].
    rewrite (getitem_lookup _ _ _ H0 Hl). simpl. rewrite Z.eqb_refl. simpl.
    split; [done|]. split; [done|]. split; [|done].
    intros y Hp. by rewrite (on_path_root p x y).
  - destruct (IH depth ltac:(lia)) as (p1 & Hfind & Hlen & Hpath & Hrest).
    exists (<[Z.to_nat x := r]> p1). simpl.
    pose proof Hxy as [H0 Hl].
    assert (Z.to_nat x < length p1)%nat as Hlt
      by (rewrite Hlen; by apply lookup_lt_Some in Hl).
    rewrite (getitem_lookup _ _ _ H0 Hl). simpl.
    assert ((y =? x) = false) as -> by (by apply Z.eqb_neq). simpl.
    rewrite Hfind. simpl. rewrite setitem_insert by done. simpl.
    rewrite (getitem_lookup _ _ r H0) by (by apply list_lookup_insert_eq).
    simpl. split; [done|]. split; [by rewrite length_insert|]. split.
    + intros z Hz.
      assert (par (<[Z.to_nat x := r]> p1) x r) as Hxr
        by (split; [done|by apply list_lookup_insert_eq]).
      destruct (decide (z = x)) as [->|Hzx]; [done|].
      apply par_insert_ne; [done|done|]. apply Hpath.
      apply rtc_inv in Hz as [->|(y' & Hxy' & Hz)]; [done|].
      by rewrite (par_fun p x y y').
    + intros z Hz0 Hz.
      assert (z ≠ x) as Hzx by (intros ->; apply Hz, rtc_refl).
      rewrite list_lookup_insert_ne by (intros Heq; apply Z2Nat.inj in Heq; lia).
      apply Hrest; [done|]. intros Hy'. apply Hz. by apply (rtc_l _ _ y).
Qed.

Lemma getitem_same_cell p p' y :
  length p' = length p → 0 <= y → p' !! Z.to_nat y = p !! Z.to_nat y →
  getitem p' y = getitem p y.
Proof.
  intros Hlen Hy Hcell. unfold getitem. rewrite Hlen.
  destruct (Z.lt_ge_cases y (Z.of_nat (length p))) as [Hlt|Hge].
  - rewrite norm_index_nonneg by lia. by rewrite Hcell.
  - by rewrite norm_index_beyond by lia.
Qed.

(** X10: path compression.  In any state reached by unions, [find(x)]
    follows the parents of [x] up to the root [r] of its tree (an
    element that is its own parent) and returns it; afterwards every
    cell on the path from [x] to [r], the cell of [x] included, holds
    [r], every other cell is as it was, every element has the root it
    had, and asking again returns [r] and leaves the list as it is. *)
Theorem find_compresses_and_settles
    (n : nat) (calls : list (Z * Z)) (depth : nat) (x : Z) :
  valid_calls n calls → (length calls < depth)%nat → in_universe n x →
  ∃ parent p1 r d,
    unions depth (init n) calls = Ok parent
    ∧ root_in parent x r d
    ∧ find depth parent x = Ok (p1, r)
    ∧ getitem p1 x = Ok r
    ∧ getitem p1 r = Ok r
    ∧ (∀ y, on_path parent x y → getitem p1 y = Ok r)
    ∧ (∀ y, 0 <= y → ¬ on_path parent x y → getitem p1 y = getitem parent y)
    ∧ (∀ y ry dy, root_in parent y ry dy →
         ∃ dy', root_in p1 y ry dy' ∧ (dy' ≤ dy)%nat)
    ∧ find depth p1 x = Ok (p1, r).
Proof.
  intros Hvalid Hdepth Hx.
  destruct (reachable_forest n calls depth Hvalid Hdepth) as (parent & Hrun & Hlen & Hroots).
  destruct (Hroots x Hx) as (r & d & Hr & Hd).
  destruct (find_full _ _ _ _ Hr depth ltac:(lia)) as (p1 & Hfind & _ & Hcell & Hcells).
  destruct (find_path _ _ _ _ Hr depth ltac:(lia)) as (p1' & Hfind' & Hlen1 & Hpath & Hrest).
  destruct (find_spec _ _ _ _ Hr depth ltac:(lia)) as (p1'' & Hfind'' & _ & Hkeep).
  assert (p1' = p1) as -> by congruence. assert (p1'' = p1) as -> by congruence.
  assert (∀ y, on_path parent x y → getitem p1 y = Ok r) as Hpath'.
  { intros y Hy. destruct (Hpath y Hy) as [H0 Hl]. by apply getitem_lookup. }
  exists parent, p1, r, d. split; [done|]. split; [done|]. split; [done|].
  split; [apply Hpath', rtc_refl|].
  split; [by eapply Hpath', root_in_on_path|].
  split; [done|]. split.
  - intros y Hy0 Hy. apply getitem_same_cell; [done|done|by apply Hrest].
  - split; [done|].
    apply find_flat; [done| |destruct Hr; [left; done|right; lia]|lia].
    apply Hcells. by eapply root_in_is_root.
Qed.

Lemma find_compresses_and_settles_witness :
  ∃ parent p1 r d,
    unions 4 (init 6) [(0, 1); (1, 2); (2, 3)] = Ok parent
    ∧ root_in parent 0 r d
    ∧ find 4 parent 0 = Ok (p1, r)
    ∧ getitem p1 0 = Ok r
    ∧ getitem p1 r = Ok r
    ∧ (∀ y, on_path parent 0 y → getitem p1 y = Ok r)
    ∧ (∀ y, 0 <= y → ¬ on_path parent 0 y → getitem p1 y = getitem parent y)
    ∧ (∀ y ry dy, root_in parent y ry dy →
         ∃ dy', root_in p1 y ry dy' ∧ (dy' ≤ dy)%nat)
    ∧ find 4 p1 0 = Ok (p1, r).
Proof.
  apply (find_compresses_and_settles 6 [(0, 1); (1, 2); (2, 3)] 4 0).
  - repeat constructor; simpl; lia.
  - simpl. lia.
  - unfold in_universe. lia.
Defined.

(** The chain 0, 1, 2, 3 before and after [find(0)]. *)
Example find_compresses_demo :
  unions 4 (init 6) [(0, 1); (1, 2); (2, 3)] = Ok [1; 2; 3; 3; 4; 5]
  ∧ find 4 [1; 2; 3; 3; 4; 5] 0 = Ok ([3; 3; 3; 3; 4; 5], 3).
Proof. split; reflexivity. Qed.

(** X11: a [union] of two elements that are already in one set (in
    particular [union(x, x)]) raises nothing and joins nothing: every
    [find(u) == find(v)] answers afterwards what it answered before. *)
Theorem union_within_one_set_changes_nothing
    (n : nat) (calls : list (Z * Z)) (depth : nat) (x y u v : Z) :
  valid_calls n calls → (length calls < depth)%nat →
  in_universe n x → in_universe n y → in_universe n u → in_universe n v →
  ∃ parent,
    unions depth (init n) calls = Ok parent
    ∧ (same_set depth parent x y = Ok true →
       ∃ p', union depth parent x y = Ok p'
             ∧ same_set depth p' u v = same_set depth parent u v).
Proof.
  intros Hvalid Hdepth Hx Hy Hu Hv.
  destruct (reachable_forest n calls depth Hvalid Hdepth) as (parent & Hrun & Hfor).
  exists parent. split; [done|]. intros Hsame.
  destruct (find_twice _ _ _ _ _ _ Hfor Hx Hy Hdepth)
    as (p1 & p2 & rx & ry & dx & dy & Hf1 & Hf2 & Hrx & Hry & Hlen2 & Hkeep).
  unfold same_set in Hsame. rewrite Hf1 in Hsame. simpl in Hsame.
  rewrite Hf2 in Hsame. simpl in Hsame. injection Hsame as Heq.
  exists p2. split.
  - unfold union. rewrite Hf1. simpl. rewrite Hf2. simpl. by rewrite Heq.
  - pose proof (forest_keep _ _ _ _ Hfor Hlen2 Hkeep) as Hfor2.
    destruct Hfor as [Hlen Hroots].
    destruct (Hroots u Hu) as (ru & du & Hru & _).
    destruct (Hroots v Hv) as (rv & dv & Hrv & _).
    destruct (Hkeep _ _ _ Hru) as (du2 & Hru2 & _).
    destruct (Hkeep _ _ _ Hrv) as (dv2 & Hrv2 & _).
    rewrite (same_set_roots _ _ _ _ _ _ _ _ _ _ Hfor2 Hdepth Hu Hv Hru2 Hrv2).
    by rewrite (same_set_roots n parent (length calls) depth u v ru rv du dv).
Qed.

Lemma union_within_one_set_changes_nothing_witness :
  ∃ parent,
    unions 2 (init 6) [(1, 2)] = Ok parent
    ∧ (same_set 2 parent 5 5 = Ok true →
       ∃ p', union 2 parent 5 5 = Ok p'
             ∧ same_set 2 p' 1 2 = same_set 2 parent 1 2).
Proof.
  apply (union_within_one_set_changes_nothing 6 [(1, 2)] 2 5 5 1 2);
    try (unfold in_universe; lia).
  - repeat constructor; simpl; lia.
  - simpl. lia.
Defined.

(** *** Counting the sets *)

Lemma count_sets_cells p p' :
  length p' = length p → (∀ z, par p' z z ↔ par p z z) →
  count_sets p' = count_sets p.
Proof.
  intros Hlen Hcells. unfold count_sets. rewrite Hlen. f_equal.
  apply list_filter_iff. intros i.
  specialize (Hcells (Z.of_nat i)). unfold par in Hcells.
  rewrite Nat2Z.id in Hcells. split; intros Hi.
  - apply Hcells. split; [lia|done].
  - apply Hcells. split; [lia|done].
Qed.

Lemma filter_agree_off (P Q : nat → Prop) `{∀ i, Decision (P i)} `{∀ i, Decision (Q i)}
    (a : nat) (l : list nat) :
  a ∉ l → (∀ i, i ≠ a → Q i ↔ P i) → filter Q l = filter P l.
Proof.
  intros Ha Hiff. induction l as [|i l IH]; [done|].
  apply not_elem_of_cons in Ha as [Hia Ha]. rewrite !filter_cons, (IH Ha).
  pose proof (Hiff i ltac:(done)).
  destruct (decide (Q i)), (decide (P i)); tauto.
Qed.

Lemma filter_drop_one (P Q : nat → Prop) `{∀ i, Decision (P i)} `{∀ i, Decision (Q i)}
    (a : nat) (l : list nat) :
  NoDup l → a ∈ l → P a → ¬ Q a → (∀ i, i ≠ a → Q i ↔ P i) →
  (length (filter Q l) + 1 = length (filter P l))%nat.
Proof.
  intros Hnd Ha HPa HQa Hiff. induction l as [|i l IH]; [by apply elem_of_nil in Ha|].
  apply NoDup_cons in Hnd as [Hi Hnd]. rewrite !filter_cons.
  destruct (decide (i = a)) as [->|Hia].
  - destruct (decide (P a)); [|done]. destruct (decide (Q a)); [done|].
    simpl. rewrite (filter_agree_off P Q a l Hi Hiff). lia.
  - apply elem_of_cons in Ha as [->|Ha]; [done|].
    pose proof (Hiff i Hia). specialize (IH Hnd Ha).
    destruct (decide (Q i)), (decide (P i)); simpl; try tauto; lia.
Qed.

(** [parent[root_x] = root_y] on two different roots: one set less. *)
Lemma count_sets_link p rx ry :
  par p rx rx → rx ≠ ry →
  (count_sets (<[Z.to_nat rx := ry]> p) + 1 = count_sets p)%nat.
Proof.
  intros [H0 Hrx] Hne. unfold count_sets. rewrite length_insert.
  apply lookup_lt_Some in Hrx as Hlt.
  apply (filter_drop_one _ _ (Z.to_nat rx)).
  - apply NoDup_seq.
  - apply elem_of_seq. lia.
  - rewrite Hrx. f_equal. lia.
  - rewrite list_lookup_insert_eq by done. intros [= ->]. apply Hne. lia.
  - intros i Hi. by rewrite list_lookup_insert_ne.
Qed.

Lemma count_sets_init n : count_sets (init n) = n.
Proof.
  unfold count_sets. rewrite filter_all.
  - rewrite length_seq. unfold init. by rewrite length_map, length_seq.
  - apply Forall_forall. intros i Hi. apply elem_of_seq in Hi.
    unfold init in *. rewrite length_map, length_seq in Hi.
    rewrite list_lookup_fmap, lookup_seq_lt by lia. done.
Qed.

(** X12: the number of sets never grows.  A fresh object has [n] sets;
    a [union] of two elements that [find] tells apart leaves one set
    less, any other [union] leaves their number as it is; [find] itself
    never changes it. *)
Theorem union_counts_sets
    (n : nat) (calls : list (Z * Z)) (depth : nat) (x y : Z) :
  valid_calls n calls → (length calls < depth)%nat →
  in_universe n x → in_universe n y →
  count_sets (init n) = n
  ∧ ∃ parent p1 r p' b,
      unions depth (init n) calls = Ok parent
      ∧ find depth parent x = Ok (p1, r) ∧ count_sets p1 = count_sets parent
      ∧ same_set depth parent x y = Ok b
      ∧ union depth parent x y = Ok p'
      ∧ (count_sets p' + (if b then 0 else 1) = count_sets parent)%nat.
Proof.
  intros Hvalid Hdepth Hx Hy. split; [apply count_sets_init|].
  destruct (reachable_forest n calls depth Hvalid Hdepth) as (parent & Hrun & Hlen & Hroots).
  destruct (Hroots x Hx) as (rx & dx & Hrx & Hdx).
  destruct (Hroots y Hy) as (ry & dy & Hry & Hdy).
  destruct (find_full _ _ _ _ Hrx depth ltac:(lia)) as (p1 & Hf1 & Hlen1 & _ & Hcells1).
  destruct (find_spec _ _ _ _ Hrx depth ltac:(lia)) as (p1' & Hf1' & _ & Hkeep1).
  rewrite Hf1 in Hf1'. injection Hf1' as <-.
  destruct (Hkeep1 _ _ _ Hry) as (dy1 & Hry1 & Hdy1).
  destruct (find_full _ _ _ _ Hry1 depth ltac:(lia)) as (p2 & Hf2 & Hlen2 & _ & Hcells2).
  assert (count_sets p1 = count_sets parent) as Hc1 by (by apply count_sets_cells).
  assert (count_sets p2 = count_sets parent) as Hc2.
  { rewrite <- Hc1. by apply count_sets_cells. }
  assert (par p2 rx rx) as Hprx.
  { apply Hcells2, Hcells1. by eapply root_in_is_root. }
  exists parent, p1, rx.
  exists (if rx =? ry then p2 else <[Z.to_nat rx := ry]> p2), (rx =? ry).
  split; [done|]. split; [done|]. split; [done|]. split.
  { unfold same_set. rewrite Hf1. simpl. by rewrite Hf2. }
  unfold union. rewrite Hf1. simpl. rewrite Hf2. simpl.
  destruct (rx =? ry) eqn:Heq; simpl.
  - split; [done|lia].
  - apply Z.eqb_neq in Heq.
    rewrite setitem_insert by (apply Hprx || by eapply par_lt). split; [done|].
    rewrite <- Hc2. by apply count_sets_link.
Qed.

Lemma union_counts_sets_witness :
  count_sets (init 6) = 6%nat
  ∧ ∃ parent p1 r p' b,
      unions 3 (init 6) [(1, 2); (3, 4)] = Ok parent
      ∧ find 3 parent 2 = Ok (p1, r) ∧ count_sets p1 = count_sets parent
      ∧ same_set 3 parent 2 3 = Ok b
      ∧ union 3 parent 2 3 = Ok p'
      ∧ (count_sets p' + (if b then 0 else 1) = count_sets parent)%nat.
Proof.
  apply (union_counts_sets 6 [(1, 2); (3, 4)] 3 2 3); try (unfold in_universe; lia).
  - repeat constructor; simpl; lia.
  - simpl. lia.
Defined.

(** Six elements, two unions: four sets. *)
Example count_sets_demo :
  (parent ← unions 3 (init 6) [(1, 2); (3, 4)]; Ok (count_sets parent)) = Ok 4%nat.
Proof. reflexivity. Qed.

(** *** Negative ids *)

Lemma norm_index_neg (len : nat) (i : Z) :
  - Z.of_nat len <= i < 0 → norm_index len i = Some (Z.to_nat (Z.of_nat len + i)).
Proof.
  intros [Hlo Hhi]. unfold norm_index.
  assert ((0 <=? i) = false) as -> by (apply Z.leb_gt; lia). simpl.
  apply Z.leb_le in Hlo as ->. by apply Z.ltb_lt in Hhi as ->.
Qed.

Lemma getitem_neg {A} (l : list A) (i : Z) (a : A) :
  - Z.of_nat (length l) <= i < 0 →
  l !! Z.to_nat (Z.of_nat (length l) + i) = Some a → getitem l i = Ok a.
Proof. intros Hi Hl. unfold getitem. by rewrite norm_index_neg, Hl. Qed.

Lemma setitem_neg {A} (l : list A) (i : Z) (a : A) :
  - Z.of_nat (length l) <= i < 0 →
  setitem l i a = Ok (<[Z.to_nat (Z.of_nat (length l) + i) := a]> l).
Proof. intros Hi. unfold setitem. by rewrite norm_index_neg. Qed.

(** X13: an id in [[-n, -1]] is not refused: the list subscript takes it
    for the cell [n + x], and [find] returns the root of that element. *)
Theorem find_negative_id_is_alias
    (n : nat) (calls : list (Z * Z)) (depth : nat) (x : Z) :
  valid_calls n calls → (length calls + 1 < depth)%nat →
  - Z.of_nat n <= x < 0 →
  ∃ parent p1 p2 r,
    unions depth (init n) calls = Ok parent
    ∧ find depth parent x = Ok (p1, r)
    ∧ find depth parent (Z.of_nat n + x) = Ok (p2, r).
Proof.
  intros Hvalid Hdepth Hx.
  destruct (reachable_forest n calls depth Hvalid ltac:(lia)) as (parent & Hrun & Hlen & Hroots).
  destruct (Hroots (Z.of_nat n + x)) as (r & d & Hr & Hd); [unfold in_universe; lia|].
  destruct (find_spec _ _ _ _ Hr depth ltac:(lia)) as (p2 & Hf2 & _).
  assert (∃ y dy, par parent (Z.of_nat n + x) y ∧ root_in parent y r dy ∧ (dy <= d)%nat)
    as (y & dy & Hy & Hyr & Hdy).
  { clear -Hr. destruct Hr as [m Hpar|m y r d' Hpar Hne Hyr].
    - exists m, 0%nat. split; [done|]. split; [by constructor|done].
    - exists y, d'. split; [done|]. split; [done|lia]. }
  destruct depth as [|depth]; [lia|].
  destruct (find_spec _ _ _ _ Hyr depth ltac:(lia)) as (p1 & Hf1 & Hlen1 & _).
  exists parent, (<[Z.to_nat (Z.of_nat n + x) := r]> p1), p2, r.
  split; [done|]. split; [|done].
  destruct Hy as [_ Hy]. apply lookup_lt_Some in Hy as Hlt.
  assert (0 <= y) as Hy0 by (destruct (root_in_par _ _ _ _ Hyr) as [? [? _]]; done).
  assert (- Z.of_nat (length parent) <= x < 0) as Hx' by (by rewrite Hlen).
  assert (- Z.of_nat (length p1) <= x < 0) as Hx1 by (by rewrite Hlen1).
  assert (Z.to_nat (Z.of_nat (length p1) + x) = Z.to_nat (Z.of_nat n + x)) as Hcell
    by (by rewrite Hlen1, Hlen).
  simpl. rewrite (getitem_neg parent x y Hx') by (by rewrite Hlen). simpl.
  assert ((y =? x) = false) as -> by (apply Z.eqb_neq; lia). simpl.
  rewrite Hf1. simpl. rewrite (setitem_neg p1 x r Hx1), Hcell. simpl.
  rewrite (getitem_neg _ x r).
  - done.
  - by rewrite length_insert.
  - rewrite length_insert, Hcell. apply list_lookup_insert_eq. lia.
Qed.

Lemma find_negative_id_is_alias_witness :
  ∃ parent p1 p2 r,
    unions 3 (init 3) [(2, 0)] = Ok parent
    ∧ find 3 parent (-1) = Ok (p1, r)
    ∧ find 3 parent (Z.of_nat 3 + -1) = Ok (p2, r).
Proof.
  apply (find_negative_id_is_alias 3 [(2, 0)] 3 (-1)).
  - repeat constructor; simpl; lia.
  - simpl. lia.
  - lia.
Defined.
End UnionFindMore.

(** ** Breadth-first traversal: once each, start first *)
Section BFSMore.
Import BFS.
Context {G : Type} `{Graph G} (g : G).

Lemma bfs_loop_extends_printed (fuel : nat) :
  ∀ queue visited printed,
    printed `prefix_of` (bfs_loop fuel g queue visited printed).1.
Proof.
  induction fuel as [|fuel IH]; intros queue visited printed.
  - by destruct queue.
  - destruct queue as [|node queue]; [done|]. simpl.
    destruct (adj g node) as [ns|e]; [|by apply prefix_app_r].
    destruct (fold_left visit ns (queue, visited)) as [queue' visited'].
    etrans; [|apply IH]. by apply prefix_app_r.
Qed.
(** A run that ends normally has taken one turn of the loop for each
    node it printed: any allowance of that many turns gives the same
    run. *)
Lemma bfs_loop_turns (fuel : nat) :
  ∀ queue visited printed out,
    bfs_loop fuel g queue visited printed = (out, Some (Ok ())) →
    ∀ fuel', length out - length printed ≤ fuel' →
      bfs_loop fuel' g queue visited printed = (out, Some (Ok ())).
Proof.
  induction fuel as [|fuel IH]; intros queue visited printed out Hrun fuel' Hfuel.
  - destruct queue as [|node queue]; [|done]. by destruct fuel'.
  - destruct queue as [|node queue]; [by destruct fuel'|].
    simpl in Hrun. destruct (adj g node) as [ns|e] eqn:Hadj; [|done].
    destruct (fold_left visit ns (queue, visited)) as [queue' visited'] eqn:Hfold.
    pose proof (bfs_loop_extends_printed fuel queue' visited' (printed ++ [node]))
      as [rest Hrest].
    rewrite Hrun in Hrest. simpl in Hrest.
    assert (length out = length printed + 1 + length rest) as Hlen
      by (rewrite Hrest, !length_app; simpl; lia).
    destruct fuel' as [|fuel']; [lia|].
    simpl. rewrite Hadj, Hfold. apply (IH _ _ _ _ Hrun).
    rewrite length_app. simpl. lia.
Qed.
End BFSMore.

(** X14: on a graph all of whose listed neighbours are nodes, the
    traversal from a node of the graph ends normally after one turn of
    the loop for each node it prints, which are at most as many as the
    subscripts the graph accepts; it prints the start node first and
    prints no node twice. *)
Theorem bfs_prints_start_first_and_nothing_twice
    {G : Type} `{BFS.Graph G} (g : G) (start_node : Z) :
  BFS.closed g → BFS.is_node g start_node →
  ∃ out,
    (∀ fuel, length out ≤ fuel →
       BFS.bfs_traversal fuel g start_node = (out, Some (Ok ())))
    ∧ length out ≤ length (BFS.keys g)
    ∧ head out = Some start_node ∧ NoDup out.
Proof.
  intros Hclosed Hstart.
  destruct (bfs_loop_spec g start_node Hclosed (S (length (BFS.keys g)))
              [] [start_node] {[start_node]})
    as (out & visited & Hrun & Hinv).
  { by apply bfs_inv_init. }
  { simpl. lia. }
  pose proof (BFS.inv_nodup _ _ _ _ _ Hinv) as Hnd. rewrite app_nil_r in Hnd.
  exists out. split; [|split; [|split]].
  - intros fuel Hfuel. unfold BFS.bfs_traversal.
    apply (bfs_loop_turns g _ _ _ _ _ Hrun). simpl. lia.
  - apply submseteq_length, NoDup_submseteq; [done|]. intros x Hx.
    destruct (BFS.inv_nodes _ _ _ _ _ Hinv x) as [ns Hns]; [by rewrite app_nil_r|].
    by apply (BFS.adj_keys g x ns).
  - simpl in Hrun.
    destruct Hstart as [ns Hns]. rewrite Hns in Hrun.
    destruct (fold_left BFS.visit ns ([], {[start_node]})) as [queue' visited'].
    pose proof (bfs_loop_extends_printed g (length (BFS.keys g)) queue' visited'
                  [start_node]) as Hpre.
    rewrite Hrun in Hpre. simpl in Hpre. by destruct Hpre as [rest ->].
  - done.
Qed.

Lemma bfs_prints_start_first_and_nothing_twice_witness :
  ∃ out,
    (∀ fuel, length out ≤ fuel →
       BFS.bfs_traversal fuel BFS.fork 0 = (out, Some (Ok ())))
    ∧ length out ≤ length (BFS.keys BFS.fork)
    ∧ head out = Some 0%Z ∧ NoDup out.
Proof.
  apply (bfs_prints_start_first_and_nothing_twice BFS.fork 0).
  - apply list_closedb_closed. reflexivity.
  - eexists. reflexivity.
Defined.

(** ** The path graph of [create_graph] *)
Section PathGraph.
Import BFS.

(** The graph after the first [k] turns of [for i in range(n_nodes - 1)]. *)
Lemma create_graph_turns (n k : nat) :
  k ≤ n - 1 →
  let g := fold_left
    (fun g i => append_at (append_at g i (Z.of_nat (i + 1))) (i + 1) (Z.of_nat i))
    (seq 0 k) (replicate n []) in
  length g = n
  ∧ ∀ i, i < n →
      g !! i = Some ((if decide (0 < i ≤ k) then [Z.of_nat i - 1]%Z else [])
                     ++ (if decide (i < k) then [Z.of_nat i + 1]%Z else [])).
Proof.
  induction k as [|k IH]; intros Hk.
  - simpl. split; [by rewrite length_replicate|]. intros i Hi.
    rewrite lookup_replicate_2 by done.
    destruct (decide (0 < i ≤ 0)); [lia|]. by destruct (decide (i < 0)); [lia|].
  - cbv zeta in *. rewrite seq_S, fold_left_app. simpl.
    destruct IH as [Hlen Hrow]; [lia|].
    set (g := fold_left _ (seq 0 k) _) in *.
    unfold append_at. split; [by rewrite !length_alter|].
    intros i Hi.
    destruct (decide (i = k + 1)) as [->|Hne1].
    + rewrite list_lookup_alter_eq, list_lookup_alter_ne by lia.
      rewrite Hrow by lia. simpl.
      destruct (decide (0 < k + 1 ≤ k)); [lia|].
      destruct (decide (k + 1 < k)); [lia|].
      destruct (decide (0 < k + 1 ≤ S k)); [|lia].
      destruct (decide (k + 1 < S k)); [lia|].
      simpl. do 2 f_equal. lia.
    + rewrite list_lookup_alter_ne by lia.
      destruct (decide (i = k)) as [->|Hne].
      * rewrite list_lookup_alter_eq, Hrow by lia. simpl.
        destruct (decide (k < k)); [lia|].
        destruct (decide (k < S k)); [|lia].
        destruct (decide (0 < k ≤ k)), (decide (0 < k ≤ S k)); try lia;
          simpl; do 3 f_equal; lia.
      * rewrite list_lookup_alter_ne, Hrow by lia.
        destruct (decide (0 < i ≤ k)), (decide (0 < i ≤ S k)); try lia;
          destruct (decide (i < k)), (decide (i < S k)); try lia; done.
Qed.

Lemma create_graph_lookup (n i : nat) :
  i < n → create_graph n !! i = Some (path_row n i).
Proof.
  intros Hi. destruct (create_graph_turns n (n - 1)) as [_ Hrow]; [lia|].
  unfold create_graph. rewrite Hrow by done. unfold path_row.
  destruct (decide (0 < i ≤ n - 1)), (decide (i = 0)); try lia;
    destruct (decide (i < n - 1)), (decide (i + 1 < n)); try lia; done.
Qed.

Lemma create_graph_length (n : nat) : length (create_graph n) = n.
Proof. destruct (create_graph_turns n (n - 1)) as [Hlen _]; [lia|done]. Qed.
End PathGraph.

(** X15: [create_graph n] is the path 0 - 1 - ... - (n-1): node [i] lists
    its predecessor (if any) and then its successor (if any). *)
Theorem create_graph_is_path (n : nat) :
  BFS.create_graph n = map (path_row n) (seq 0 n).
Proof.
  apply list_eq. intros i. rewrite list_lookup_fmap.
  destruct (decide (i < n)) as [Hi|Hi].
  - rewrite create_graph_lookup by done.
    by rewrite lookup_seq_lt.
  - rewrite lookup_ge_None_2 by (rewrite create_graph_length; lia).
    by rewrite lookup_seq_ge by lia.
Qed.

Section PathTraversal.
Import BFS.

Lemma create_graph_adj (n k : nat) :
  k < n → adj (create_graph n) (Z.of_nat k) = Ok (path_row n k).
Proof.
  intros Hk. change (getitem (create_graph n) (Z.of_nat k) = Ok (path_row n k)).
  apply getitem_lookup; [lia|]. rewrite Nat2Z.id. by apply create_graph_lookup.
Qed.

(** The loop with node [k] alone in the queue and [0 .. k] visited. *)
Lemma bfs_loop_path (n : nat) (fuel : nat) :
  ∀ k visited,
    k < n → n - k ≤ fuel →
    (∀ x : Z, x ∈ visited ↔ (0 ≤ x ≤ Z.of_nat k)%Z) →
    bfs_loop fuel (create_graph n) [Z.of_nat k] visited (map Z.of_nat (seq 0 k))
    = (map Z.of_nat (seq 0 n), Some (Ok ())).
Proof.
  induction fuel as [|fuel IH]; intros k visited Hk Hfuel Hvis; [lia|].
  cbn [bfs_loop]. rewrite create_graph_adj by done.
  assert (map Z.of_nat (seq 0 k) ++ [Z.of_nat k] = map Z.of_nat (seq 0 (S k))) as ->.
  { by rewrite seq_S, map_app. }
  assert (∀ q, fold_left visit (if decide (k = 0) then [] else [Z.of_nat k - 1]%Z)
                 (q, visited) = (q, visited)) as Hback.
  { intros q. destruct (decide (k = 0)); [done|]. simpl.
    destruct (decide ((Z.of_nat k - 1)%Z ∈ visited)) as [|Hn]; [done|].
    exfalso. apply Hn, Hvis. lia. }
  unfold path_row. rewrite fold_left_app, Hback.
  destruct (decide (k + 1 < n)) as [Hlt|Hge].
  - simpl. destruct (decide ((Z.of_nat k + 1)%Z ∈ visited)) as [Hin|_].
    { apply Hvis in Hin. lia. }
    simpl. replace (Z.of_nat k + 1)%Z with (Z.of_nat (S k)) by lia.
    apply IH; [lia|lia|]. intros x.
    rewrite elem_of_union, elem_of_singleton, Hvis. lia.
  - simpl. assert (n = S k) as -> by lia. by destruct fuel.
Qed.
End PathTraversal.

(** X16: on the path graph [create_graph n], the traversal from node 0
    prints the nodes in increasing order, [0 1 ... n-1], and ends
    normally, within [n] turns of the loop. *)
Theorem bfs_on_path_prints_nodes_in_order (n fuel : nat) :
  1 ≤ n → n ≤ fuel →
  BFS.bfs_traversal fuel (BFS.create_graph n) 0
  = (map Z.of_nat (seq 0 n), Some (Ok ())).
Proof.
  intros Hn Hfuel. unfold BFS.bfs_traversal.
  apply (bfs_loop_path n fuel 0 {[0%Z]}); [lia|lia|].
  intros x. rewrite elem_of_singleton. lia.
Qed.

Lemma bfs_on_path_prints_nodes_in_order_witness :
  BFS.bfs_traversal 6 (BFS.create_graph 6) 0
  = (map Z.of_nat (seq 0 6), Some (Ok ())).
Proof. apply (bfs_on_path_prints_nodes_in_order 6 6); lia. Defined.

(** ** Dijkstra: what the unbound name does for every graph *)
Section DijkstraMore.
Import Dijkstra.
Local Open Scope Z_scope.

Lemma dict_get_set_same {V} (d : dict V) (k : node) (v : V) :
  dict_get (dict_set d k v) k = Ok v.
Proof.
  induction d as [|[k' v'] d IH]; simpl.
  - by rewrite String.eqb_refl.
  - destruct (String.eqb k k') eqn:E; simpl; rewrite E; [done|exact IH].
Qed.

Lemma dict_get_raises {V} (d : dict V) (k : node) (e : exn) :
  dict_get d k = Raise e → e = KeyError.
Proof.
  induction d as [|[k' v'] d IH]; simpl; [congruence|].
  destruct (String.eqb k k'); [discriminate|exact IH].
Qed.

Lemma heappop_single (e : entry) : heappop [e] = Some (e, []).
Proof.
  unfold heappop. simpl. unfold entry_eqb.
  by rewrite Z.eqb_refl, String.eqb_refl.
Qed.

(** Without a binding of [previous], the [for] loop either raises or
    leaves the frame as it was. *)
Lemma relax_all_unbound (cd : Z) (cn : node) (st : frame) (items : list (node * Z)) :
  previous st = None →
  relax_all cd cn st items = Ok st
  ∨ relax_all cd cn st items = Raise NameError
  ∨ relax_all cd cn st items = Raise KeyError.
Proof.
  intros Hprev. induction items as [|[neighbor weight] items IH]; simpl; [by left|].
  destruct (dict_get (distances st) neighbor) as [known|e] eqn:Hget; simpl.
  - destruct (cd + weight <? known).
    + rewrite Hprev. simpl. right. by left.
    + simpl. exact IH.
  - right. right. by rewrite (dict_get_raises _ _ _ Hget).
Qed.
End DijkstraMore.

(** X17: as long as the name [previous] is unbound, [dijkstra] returns
    for no graph and no start node: the call ends within the first turn
    of its loop, and always with a NameError or a KeyError. *)
Theorem dijkstra_unbound_previous_always_raises
    (g : Dijkstra.graph) (start : Dijkstra.node) (fuel : nat) :
  Dijkstra.dijkstra None (S fuel) g start = Some (Raise NameError)
  ∨ Dijkstra.dijkstra None (S fuel) g start = Some (Raise KeyError).
Proof.
  unfold Dijkstra.dijkstra.
  set (initial := Dijkstra.dict_set _ start 0%Z).
  assert (Dijkstra.dict_get initial start = Ok 0%Z) as Hget
    by apply dict_get_set_same.
  cbn [Dijkstra.main_loop Dijkstra.pq]. rewrite heappop_single.
  cbn [Dijkstra.distances Dijkstra.previous]. rewrite !Hget.
  change (0 >? 0)%Z with false. cbv iota.
  destruct (Dijkstra.dict_get g start) as [items|e] eqn:Hg; simpl.
  - destruct (relax_all_unbound 0 start (Dijkstra.Frame initial None []) items eq_refl)
      as [-> | [-> | ->]]; [|by left|by right].
    left. by destruct fuel.
  - right. by rewrite (dict_get_raises _ _ _ Hg).
Qed.

(** X18: a start node that is not a key of the graph makes [dijkstra]
    raise KeyError at [graph[current_node]] in the first turn of the
    loop, whether or not [previous] is bound. *)
Theorem dijkstra_absent_start_raises_KeyError
    (globals_previous : option (Dijkstra.dict Dijkstra.node))
    (g : Dijkstra.graph) (start : Dijkstra.node) (fuel : nat) :
  Dijkstra.dict_get g start = Raise KeyError →
  Dijkstra.dijkstra globals_previous (S fuel) g start = Some (Raise KeyError).
Proof.
  intros Hg. unfold Dijkstra.dijkstra.
  cbn [Dijkstra.main_loop Dijkstra.pq]. rewrite heappop_single.
  cbn [Dijkstra.distances Dijkstra.previous].
  rewrite dict_get_set_same.
  change (0 >? 0)%Z with false. cbv iota.
  by rewrite Hg.
Qed.

Lemma dijkstra_absent_start_raises_KeyError_witness :
  Dijkstra.dijkstra (Some []) 1 Dijkstra.example_graph "E"%string = Some (Raise KeyError).
Proof.
  apply (dijkstra_absent_start_raises_KeyError (Some []) Dijkstra.example_graph "E"%string 0).
  reflexivity.
Defined.

(** ** The max segment tree, for every array *)
Section SegmentTreeBuild.
Import SegmentTree910.
Local Open Scope Z_scope.
#[local] Arguments getitem : simpl never.
#[local] Arguments setitem : simpl never.

Lemma py_max_Int x y : py_max (Int x) (Int y) = Int (Z.max x y).
Proof. simpl. destruct (x <? y) eqn:E; f_equal; lia. Qed.

Lemma py_max_assoc a b c : py_max (py_max a b) c = py_max a (py_max b c).
Proof.
  destruct a as [|x], b as [|y], c as [|z]; try done.
  - simpl. by destruct (y <? z).
  - simpl. by destruct (x <? y).
  - rewrite !py_max_Int. f_equal. lia.
Qed.

Lemma fold_py_max (l : list Z) :
  ∀ a, fold_left (fun m x => py_max m (Int x)) l a = py_max a (max_of l).
Proof.
  unfold max_of. induction l as [|x l IH]; intros a; simpl.
  - by destruct a.
  - rewrite IH, (IH (Int x)). apply py_max_assoc.
Qed.

Lemma max_of_app l1 l2 : max_of (l1 ++ l2) = py_max (max_of l1) (max_of l2).
Proof. unfold max_of at 1. rewrite fold_left_app. apply fold_py_max. Qed.

Lemma slice_empty arr s e : e < s → slice arr s e = [].
Proof. intros Hlt. unfold slice. apply drop_ge. rewrite length_take. lia. Qed.

Lemma slice_single arr s v :
  0 ≤ s → arr !! Z.to_nat s = Some v → slice arr s s = [v].
Proof.
  intros Hs Hv. unfold slice.
  replace (Z.to_nat (s + 1)) with (S (Z.to_nat s)) by lia.
  rewrite (take_S_r _ _ v) by done. apply drop_app_length'.
  rewrite length_take. apply lookup_lt_Some in Hv. lia.
Qed.

(** A slice cut at [m]. *)
Lemma slice_split arr a b m :
  slice arr a b = slice arr a (Z.min b m) ++ slice arr (Z.max a (m + 1)) b.
Proof.
  destruct (Z.le_gt_cases b m) as [Hbm|Hbm].
  { rewrite Z.min_l by done. rewrite (slice_empty arr (Z.max _ _)) by lia.
    by rewrite app_nil_r. }
  rewrite Z.min_r by lia.
  destruct (Z.le_gt_cases a m) as [Ham|Ham].
  - rewrite Z.max_r by lia. unfold slice.
    set (A := Z.to_nat a). set (M := Z.to_nat (m + 1)). set (B := Z.to_nat (b + 1)).
    assert (A ≤ M ≤ B)%nat as [HAM HMB] by (unfold A, M, B; lia).
    assert (take B arr = take M arr ++ drop M (take B arr)) as Hcut.
    { rewrite <- (take_drop M (take B arr)) at 1. rewrite take_take.
      by rewrite Nat.min_l by done. }
    destruct (decide (A ≤ length (take M arr))%nat) as [Hin|Hout].
    + rewrite Hcut at 1. by apply drop_app_le.
    + rewrite length_take in Hout.
      rewrite !drop_ge; [done| | |]; rewrite length_take; lia.
  - rewrite (slice_empty arr a m) by lia. by rewrite Z.max_l by lia.
Qed.

Lemma slice_clip arr s e :
  slice arr (Z.max s 0) (Z.min e (Z.of_nat (length arr) - 1)) = slice arr s e.
Proof.
  unfold slice. replace (Z.to_nat (Z.max s 0)) with (Z.to_nat s) by lia. f_equal.
  destruct (Z.le_gt_cases e (Z.of_nat (length arr) - 1)) as [Hle|Hgt].
  - by rewrite Z.min_l by done.
  - rewrite Z.min_r by lia. rewrite !take_ge; [done| |]; lia.
Qed.

Lemma getitem_insert_eq (l : list Z) i v :
  0 ≤ i < Z.of_nat (length l) → getitem (<[Z.to_nat i := v]> l) i = Ok v.
Proof.
  intros Hi. apply getitem_lookup; [lia|]. apply list_lookup_insert_eq. lia.
Qed.

Lemma getitem_insert_ne (l : list Z) i j v :
  0 ≤ i → 0 ≤ j → i ≠ j → getitem (<[Z.to_nat i := v]> l) j = getitem l j.
Proof.
  intros Hi Hj Hne. unfold getitem. rewrite length_insert.
  destruct (Z.lt_ge_cases j (Z.of_nat (length l))) as [Hlt|Hge].
  - rewrite norm_index_nonneg by lia. by rewrite list_lookup_insert_ne by lia.
  - by rewrite norm_index_beyond by lia.
Qed.

(** *** Cells and subtrees *)
Lemma below_ge i j : 0 ≤ i → below i j → i ≤ j.
Proof. intros Hi Hb. induction Hb; lia. Qed.

Lemma below_trans a b c : below a b → below b c → below a c.
Proof. intros Hab Hbc. induction Hbc; [done|by constructor..]. Qed.

(** The cells above a cell form a chain. *)
Lemma below_chain a b j : below a j → below b j → below a b ∨ below b a.
Proof.
  intros Ha. revert b. induction Ha as [|j Ha IH|j Ha IH]; intros b Hb.
  - by right.
  - inversion Hb as [Heq|k Hk Heq|k Hk Heq].
    + left. by constructor.
    + assert (k = j) as -> by lia. by apply IH.
    + lia.
  - inversion Hb as [Heq|k Hk Heq|k Hk Heq].
    + left. by constructor.
    + lia.
    + assert (k = j) as -> by lia. by apply IH.
Qed.

Lemma siblings_apart i j : 0 ≤ i → below (2 * i + 1) j → below (2 * i + 2) j → False.
Proof.
  intros Hi H1 H2. destruct (below_chain _ _ _ H1 H2) as [Hb|Hb].
  - inversion Hb as [Heq|k Hk Heq|k Hk Heq]; [lia|lia|].
    assert (k = i) as -> by lia. apply below_ge in Hk; lia.
  - apply below_ge in Hb; lia.
Qed.

Lemma built_root tree arr i s e : built tree arr i s e → ∃ v, getitem tree i = Ok v.
Proof. intros Hb. destruct Hb; by eexists. Qed.

(** [built] reads the cells of its subtree only. *)
Lemma built_frame tree tree' arr i s e :
  built tree arr i s e →
  (∀ j, below i j → getitem tree' j = getitem tree j) →
  built tree' arr i s e.
Proof.
  intros Hb. induction Hb as [i s v Hv Hi|i s e l r Hse Hl IHl Hr IHr Hgl Hgr Hgi];
    intros Hsame.
  - apply (built_leaf _ _ _ _ v); [done|]. rewrite Hsame; [done|constructor].
  - apply (built_node _ _ _ _ _ l r); [done| | | | |].
    + apply IHl. intros j Hj. apply Hsame.
      apply (below_trans _ (2 * i + 1)); [do 2 constructor|done].
    + apply IHr. intros j Hj. apply Hsame.
      apply (below_trans _ (2 * i + 2)); [do 2 constructor|done].
    + rewrite Hsame; [done|do 2 constructor].
    + rewrite Hsame; [done|do 2 constructor].
    + rewrite Hsame; [done|constructor].
Qed.
(** *** One step down the tree *)
Lemma halves n i s e :
  0 ≤ i → 0 ≤ s → s < e → e < n → (i + 2) * (e - s) ≤ 2 * (n - 1) →
  s ≤ (s + e) / 2 ∧ (s + e) / 2 < e ∧ 2 * i + 2 < 4 * n
  ∧ (2 * i + 1 + 2) * ((s + e) / 2 - s) ≤ 2 * (n - 1)
  ∧ (2 * i + 2 + 2) * (e - ((s + e) / 2 + 1)) ≤ 2 * (n - 1).
Proof.
  intros Hi Hs Hse Hen Hinv.
  assert (2 * ((s + e) / 2 - s) ≤ e - s ∧ 2 * (e - ((s + e) / 2 + 1)) ≤ e - s
          ∧ s ≤ (s + e) / 2 < e) as (H1 & H2 & H3 & H4).
  { Z.to_euclidean_division_equations. lia. }
  assert (i + 2 ≤ 2 * (n - 1)) as Hi2 by nia.
  repeat split; [done|done|lia| |]; nia.
Qed.

Lemma half_depth (k : nat) s e :
  s < e → e - s < 2 ^ (Z.of_nat (S k) - 1) →
  (s + e) / 2 - s < 2 ^ (Z.of_nat k - 1)
  ∧ e - ((s + e) / 2 + 1) < 2 ^ (Z.of_nat k - 1).
Proof.
  intros Hse Hd. destruct k as [|k].
  { change (2 ^ (Z.of_nat 1 - 1)) with 1 in Hd. lia. }
  replace (Z.of_nat (S (S k)) - 1) with (Z.succ (Z.of_nat (S k) - 1)) in Hd by lia.
  rewrite Z.pow_succ_r in Hd by lia.
  Z.to_euclidean_division_equations. lia.
Qed.

(** [build_tree(arr, s, e, i)] on a segment of the array: with enough
    recursion depth it returns, writes into the subtree of cell [i]
    only, and leaves that subtree built. *)
Lemma build_tree_spec (arr : list Z) (depth : nat) :
  ∀ tree i s e,
    Z.of_nat (length tree) = 4 * Z.of_nat (length arr) →
    0 ≤ i < 4 * Z.of_nat (length arr) →
    0 ≤ s → s ≤ e → e < Z.of_nat (length arr) →
    (i + 2) * (e - s) ≤ 2 * (Z.of_nat (length arr) - 1) →
    e - s < 2 ^ (Z.of_nat depth - 1) →
    ∃ tree',
      build_tree depth tree arr s e i = Ok tree'
      ∧ length tree' = length tree
      ∧ (∀ j, 0 ≤ j → ¬ below i j → getitem tree' j = getitem tree j)
      ∧ built tree' arr i s e.
Proof.
  induction depth as [|depth IH]; intros tree i s e Hlen Hi Hs Hse Hen Hinv Hdepth.
  { change (2 ^ (Z.of_nat 0 - 1)) with 0 in Hdepth. lia. }
  cbn [build_tree]. destruct (s =? e) eqn:Heq.
  - apply Z.eqb_eq in Heq as <-.
    destruct (lookup_lt_is_Some_2 arr (Z.to_nat s)) as [v Hv]; [lia|].
    rewrite (getitem_lookup _ _ _ Hs Hv). simpl.
    rewrite setitem_insert by lia.
    eexists. split; [done|]. split; [by rewrite length_insert|]. split.
    + intros j Hj Hnb. apply getitem_insert_ne; [lia|done|].
      intros ->. apply Hnb. constructor.
    + apply (built_leaf _ _ _ _ v); [by apply getitem_lookup|].
      apply getitem_insert_eq. lia.
  - apply Z.eqb_neq in Heq. assert (s < e) as Hlt by lia.
    destruct (halves _ i s e (proj1 Hi) Hs Hlt Hen Hinv) as (Hm1 & Hm2 & Hi2 & Hinv1 & Hinv2).
    destruct (half_depth depth s e Hlt Hdepth) as [Hd1 Hd2].
    destruct (IH tree (2 * i + 1) s ((s + e) / 2))
      as (t1 & Hb1 & Hlen1 & Hfr1 & Hbuilt1); [done|lia|done|done|lia|done|done|].
    rewrite Hb1. simpl.
    destruct (IH t1 (2 * i + 2) ((s + e) / 2 + 1) e)
      as (t2 & Hb2 & Hlen2 & Hfr2 & Hbuilt2); [lia|lia|lia|lia|done|done|done|].
    rewrite Hb2. simpl.
    assert (built t2 arr (2 * i + 1) s ((s + e) / 2)) as Hbuilt1'.
    { apply (built_frame t1); [done|]. intros j Hj. apply Hfr2.
      - apply below_ge in Hj; lia.
      - intros Hj2. apply (siblings_apart i j); [lia|done|done]. }
    destruct (built_root _ _ _ _ _ Hbuilt1') as [l Hl].
    destruct (built_root _ _ _ _ _ Hbuilt2) as [r Hr].
    rewrite Hl, Hr. simpl. rewrite setitem_insert by lia.
    eexists. split; [done|]. split; [rewrite length_insert; congruence|].
    assert (∀ k j, k = 2 * i + 1 ∨ k = 2 * i + 2 → below k j →
                   getitem (<[Z.to_nat i := Z.max l r]> t2) j = getitem t2 j) as Hkeep.
    { intros k j Hk Hj. apply below_ge in Hj; [|lia].
      apply getitem_insert_ne; lia. }
    split.
    + intros j Hj Hnb.
      rewrite getitem_insert_ne; [|lia|done|intros ->; apply Hnb; constructor].
      rewrite Hfr2, Hfr1; [done|done| |done|].
      * intros Hb. apply Hnb.
        apply (below_trans _ (2 * i + 1)); [do 2 constructor|done].
      * intros Hb. apply Hnb.
        apply (below_trans _ (2 * i + 2)); [do 2 constructor|done].
    + apply (built_node _ _ _ _ _ l r); [done| | | | |].
      * apply (built_frame t2); [done|]. intros j. apply Hkeep. by left.
      * apply (built_frame t2); [done|]. intros j. apply Hkeep. by right.
      * rewrite (Hkeep (2 * i + 1)); [done|by left|constructor].
      * rewrite (Hkeep (2 * i + 2)); [done|by right|constructor].
      * apply getitem_insert_eq. lia.
Qed.
(** *** What the built cells hold *)
Lemma getitem_nonneg_lookup (l : list Z) i a :
  0 ≤ i → getitem l i = Ok a → l !! Z.to_nat i = Some a.
Proof.
  intros Hi. unfold getitem.
  destruct (Z.lt_ge_cases i (Z.of_nat (length l))) as [Hlt|Hge].
  - rewrite norm_index_nonneg by lia. destruct (l !! Z.to_nat i); congruence.
  - by rewrite norm_index_beyond by lia.
Qed.

Lemma built_holds_max tree arr i s e :
  built tree arr i s e → 0 ≤ s →
  ∃ m, getitem tree i = Ok m ∧ max_of (slice arr s e) = Int m.
Proof.
  intros Hb. induction Hb as [i s v Hv Hi|i s e l r Hse Hl IHl Hr IHr Hgl Hgr Hgi];
    intros Hs.
  - exists v. split; [done|].
    by rewrite (slice_single arr s v Hs (getitem_nonneg_lookup _ _ _ Hs Hv)).
  - assert (s ≤ (s + e) / 2 < e) as Hmid by (Z.to_euclidean_division_equations; lia).
    destruct (IHl Hs) as (ml & Hml & Hmaxl).
    destruct IHr as (mr & Hmr & Hmaxr); [lia|].
    assert (ml = l) as -> by congruence. assert (mr = r) as -> by congruence.
    exists (Z.max l r). split; [done|].
    rewrite (slice_split arr s e ((s + e) / 2)), max_of_app.
    rewrite Z.min_r, Z.max_r by lia. by rewrite Hmaxl, Hmaxr, py_max_Int.
Qed.

Lemma built_node_of tree arr i s e :
  built tree arr 0 0 (Z.of_nat (length arr) - 1) →
  node_of (Z.of_nat (length arr)) i s e →
  built tree arr i s e ∧ 0 ≤ s.
Proof.
  intros Hroot Hn. induction Hn as [|i s e Hn [IH Hs] Hse|i s e Hn [IH Hs] Hse].
  - done.
  - split; [|done]. inversion IH; subst; [lia|done].
  - split; [inversion IH; subst; [lia|done]|].
    Z.to_euclidean_division_equations. lia.
Qed.

Lemma slice_all arr : slice arr 0 (Z.of_nat (length arr) - 1) = arr.
Proof. unfold slice. simpl. apply take_ge. lia. Qed.

Lemma init_built (arr : list Z) (depth : nat) :
  arr ≠ [] → (length arr ≤ 2 ^ depth)%nat →
  ∃ tree,
    init (S depth) arr = Ok tree
    ∧ length tree = (4 * length arr)%nat
    ∧ built tree arr 0 0 (Z.of_nat (length arr) - 1).
Proof.
  intros Hne Hd. unfold init. cbv zeta.
  assert (0 < Z.of_nat (length arr)) as Hn by (destruct arr; [done|simpl; lia]).
  destruct (build_tree_spec arr (S depth)
              (replicate (Z.to_nat (4 * Z.of_nat (length arr))) 0)
              0 0 (Z.of_nat (length arr) - 1))
    as (tree & Hb & Hlen & _ & Hbuilt).
  - rewrite length_replicate. lia.
  - lia.
  - lia.
  - lia.
  - lia.
  - lia.
  - replace (Z.of_nat (S depth) - 1) with (Z.of_nat depth) by lia.
    apply Nat2Z.inj_le in Hd. rewrite Nat2Z.inj_pow in Hd. simpl in Hd. lia.
  - exists tree. split; [done|]. split; [|done].
    rewrite Hlen, length_replicate. lia.
Qed.

(** *** Queries over the bounds of the array *)
Lemma query_helper_unfold depth tree start end_ index tree_start tree_end :
  query_helper (S depth) tree start end_ index tree_start tree_end =
  if (start >? tree_end) || (end_ <? tree_start) then Ok NegInf
  else if (start <=? tree_start) && (end_ >=? tree_end) then
    v ← getitem tree index; Ok (Int v)
  else
    left_max ← query_helper depth tree start (Z.min end_ ((tree_start + tree_end) / 2))
                            (2 * index + 1) tree_start ((tree_start + tree_end) / 2);
    right_max ← query_helper depth tree (Z.max start ((tree_start + tree_end) / 2 + 1)) end_
                             (2 * index + 2) ((tree_start + tree_end) / 2 + 1) tree_end;
    Ok (py_max left_max right_max).
Proof. reflexivity. Qed.

Lemma query_helper_spec tree arr i ts te :
  built tree arr i ts te → 0 ≤ ts →
  ∀ depth start end_,
    te - ts < 2 ^ (Z.of_nat depth - 1) →
    query_helper depth tree start end_ i ts te
    = Ok (max_of (slice arr (Z.max start ts) (Z.min end_ te))).
Proof.
  intros Hb.
  induction Hb as [i s v Hv Hi|i s e l r Hse Hl IHl Hr IHr Hgl Hgr Hgi];
    intros Hs depth start end_ Hdepth.
  - destruct depth as [|depth].
    { change (2 ^ (Z.of_nat 0 - 1)) with 0 in Hdepth. lia. }
    rewrite query_helper_unfold.
    destruct ((start >? s) || (end_ <? s)) eqn:Hdis.
    { apply orb_true_iff in Hdis. by rewrite slice_empty by lia. }
    apply orb_false_iff in Hdis as [H1 H2].
    assert ((start <=? s) && (end_ >=? s) = true) as ->.
    { apply andb_true_iff. lia. }
    rewrite Hi. simpl. rewrite Z.max_r, Z.min_r by lia.
    by rewrite (slice_single arr s v Hs (getitem_nonneg_lookup _ _ _ Hs Hv)).
  - destruct depth as [|depth].
    { change (2 ^ (Z.of_nat 0 - 1)) with 0 in Hdepth. lia. }
    destruct (half_depth depth s e Hse Hdepth) as [Hd1 Hd2].
    assert (s ≤ (s + e) / 2 < e) as Hmid by (Z.to_euclidean_division_equations; lia).
    rewrite query_helper_unfold.
    destruct ((start >? e) || (end_ <? s)) eqn:Hdis.
    { apply orb_true_iff in Hdis. by rewrite slice_empty by lia. }
    apply orb_false_iff in Hdis as [H1 H2].
    destruct ((start <=? s) && (end_ >=? e)) eqn:Hcov.
    { apply andb_true_iff in Hcov as [H3 H4].
      rewrite Hgi. simpl. rewrite (Z.max_r start s), (Z.min_r end_ e) by lia.
      destruct (built_holds_max tree arr i s e) as (m & Hm & ->); [|done|congruence].
      by apply (built_node _ _ _ _ _ l r). }
    rewrite IHl, IHr by (done || lia). simpl.
    rewrite (slice_split arr (Z.max start s) (Z.min end_ e) ((s + e) / 2)), max_of_app.
    replace (Z.min (Z.min end_ ((s + e) / 2)) ((s + e) / 2))
      with (Z.min (Z.min end_ e) ((s + e) / 2)) by lia.
    replace (Z.max (Z.max start ((s + e) / 2 + 1)) ((s + e) / 2 + 1))
      with (Z.max (Z.max start s) ((s + e) / 2 + 1)) by lia.
    done.
Qed.

(** *** The empty array *)
Lemma build_tree_empty (depth : nat) :
  ∀ tree index, build_tree depth tree [] 0 (-1) index = Raise RecursionError.
Proof.
  induction depth as [|depth IH]; intros tree index; [done|].
  cbn [build_tree]. change (0 =? -1) with false. cbv iota.
  change ((0 + -1) / 2) with (-1). by rewrite IH.
Qed.
End SegmentTreeBuild.

(** X19: [SegmentTree([])] never returns: on the empty array
    [build_tree(arr, 0, -1, 0)] calls itself on the segment [(0, -1)]
    again, whatever the recursion limit. *)
Theorem init_empty_array_recurses_forever (depth : nat) :
  SegmentTree910.init depth [] = Raise RecursionError.
Proof. unfold SegmentTree910.init. simpl. apply build_tree_empty. Qed.





Section SegmentTreeQuery.
Import SegmentTree910.
Local Open Scope Z_scope.
#[local] Arguments getitem : simpl never.

(** [query] hands [query_helper] the bounds [0] and [len(tree) // 2 - 1],
    twice the length of the array: the full-range query is answered by
    cell 1, the left child of the root. *)
Lemma query_full_range tree arr (depth : nat) :
  2 ≤ Z.of_nat (length arr) →
  length tree = (4 * length arr)%nat →
  built tree arr 0 0 (Z.of_nat (length arr) - 1) →
  query (S (S depth)) tree 0 (Z.of_nat (length arr) - 1)
  = Ok (max_of (slice arr 0 ((Z.of_nat (length arr) - 1) / 2))).
Proof.
  intros Hn Hlen Hb.
  set (n := Z.of_nat (length arr)) in *.
  assert (built tree arr 1 0 ((n - 1) / 2)) as Hleft.
  { inversion Hb as [i s v Hv Hi Hi0 Hs0 He0|i s e l r Hse Hl Hr Hgl Hgr Hgi Hi0 Hs0 He0].
    - lia.
    - exact Hl. }
  destruct (built_holds_max _ _ _ _ _ Hleft) as (m & Hm & Hmax); [done|].
  unfold query. cbv zeta.
  replace (Z.of_nat (length tree) / 2 - 1) with (2 * n - 1)
    by (rewrite Hlen; unfold n; Z.to_euclidean_division_equations; lia).
  rewrite query_helper_unfold.
  assert ((0 >? 2 * n - 1) || (n - 1 <? 0) = false) as ->
    by (apply orb_false_iff; lia).
  assert ((0 <=? 0) && (n - 1 >=? 2 * n - 1) = false) as ->
    by (apply andb_false_iff; right; lia).
  replace ((0 + (2 * n - 1)) / 2) with (n - 1)
    by (Z.to_euclidean_division_equations; lia).
  rewrite !query_helper_unfold.
  rewrite Z.min_id.
  assert ((0 >? n - 1) || (n - 1 <? 0) = false) as ->
    by (apply orb_false_iff; lia).
  assert ((0 <=? 0) && (n - 1 >=? n - 1) = true) as ->
    by (apply andb_true_iff; lia).
  change (2 * 0 + 1) with 1. rewrite Hm. simpl.
  assert ((Z.max 0 (n - 1 + 1) >? 2 * n - 1) || (n - 1 <? n - 1 + 1) = true) as ->
    by (apply orb_true_iff; right; lia).
  simpl. by rewrite Hmax.
Qed.
End SegmentTreeQuery.


